(** * fast-hasher: the QuickXor accumulator, the multi-hash fan-out,
      the filter predicate, the algorithm registry and the scanner.

    Bytes are integers in [0, 256) (type [Z]); Go's [uint64] counter is a
    [Z] reduced modulo [2^64] after every addition; Go strings are Rocq
    strings (one [ascii] per byte). *)

From Stdlib Require Import ZArith Ascii String List Lia Permutation.
From Stdlib Require OrderedTypeEx.
From stdpp Require Import base option list sorting gmap strings.

Local Open Scope Z_scope.

(** ** Bytes and strings *)

(** [byte(x)]: Go's conversion of an integer to [byte] keeps the low 8 bits. *)
Definition byte (x : Z) : Z := Z.land x 255.

(** [[]byte(s)] and [string(b)]. *)
Definition bytes_of_string (s : string) : list Z :=
  map (fun c => Z.of_N (N_of_ascii c)) (list_ascii_of_string s).

Definition string_of_bytes (b : list Z) : string :=
  string_of_list_ascii (map (fun x => ascii_of_N (Z.to_N x)) b).

(** ** pkg/quickxorhash *)

Module quickxorhash.

Definition BlockSize : Z := 64.
Definition Size : nat := 20.
Definition shift : nat := 11.
Definition widthInBits : nat := 8 * Size.
Definition dataSize : nat := Eval cbv in (shift * widthInBits)%nat.

(** [type quickXorHash struct { data [dataSize]byte; size uint64 }] *)
Record quickXorHash : Type := mk {
  data : list Z;
  size : Z
}.

(** The receiver [q *quickXorHash] is threaded through every method: a
    method is a function from the accumulator before the call to the
    returned value and the accumulator after the call. *)
Definition M (A : Type) : Type := quickXorHash -> A * quickXorHash.

#[global] Instance M_ret : MRet M := fun A a q => (a, q).
#[global] Instance M_bind : MBind M :=
  fun A B k m q => let (a, q') := m q in k a q'.
Definition get_data : M (list Z) := fun q => (data q, q).
Definition get_size : M Z := fun q => (size q, q).
Definition set_data (d : list Z) : M unit := fun q => (tt, mk d (size q)).
Definition set_size (n : Z) : M unit := fun q => (tt, mk (data q) n).

(** [New]: the zero value of the struct. *)
Definition New : quickXorHash := mk (replicate dataSize 0) 0.

(** [subtle.XORBytes(dst, src, dst)]: the first [min(len dst, len src)]
    bytes of [dst] become [src[i] ^ dst[i]], the rest of [dst] is kept;
    the count of bytes touched is returned. *)
Fixpoint xor_into (dst src : list Z) : list Z :=
  match dst, src with
  | d :: dst', s :: src' => Z.lxor s d :: xor_into dst' src'
  | _, _ => dst
  end.

Definition xorBytes (dst src : list Z) : list Z * nat :=
  (xor_into dst src, Nat.min (length dst) (length src)).

(** The loop [for len(p)-i >= dataSize { i += xorBytes(q.data[:], p[i:]) }].
    Every turn advances [i] by [dataSize], so [length p] turns are more
    than enough fuel. *)
Fixpoint write_blocks (fuel : nat) (p : list Z) (d : list Z) (i : nat)
  : list Z * nat :=
  match fuel with
  | O => (d, i)
  | S fuel' =>
      if (dataSize <=? length p - i)%nat
      then let (d', n) := xorBytes d (drop i p) in
           write_blocks fuel' p d' (i + n)
      else (d, i)
  end.

(** [func (q *quickXorHash) Write(p []byte) (n int, err error)];
    the error is always nil and is left out. *)
Definition Write (p : list Z) : M nat :=
  d ← get_data;
  sz ← get_size;
  let lastRemain := Z.to_nat (sz mod Z.of_nat dataSize) in
  let (d1, i) :=
    if (lastRemain =? 0)%nat then (d, O)
    else let (t, n) := xorBytes (drop lastRemain d) p in
         (take lastRemain d ++ t, n) in
  let d2 :=
    if (i =? length p)%nat then d1
    else let (d', i') := write_blocks (length p) p d1 i in
         fst (xorBytes d' (drop i' p)) in
  set_data d2;;
  set_size ((sz + Z.of_nat (length p)) mod 2 ^ 64);;
  mret (length p).

(** [h[k] ^= v]. *)
Definition xor_at (k : nat) (v : Z) (h : list Z) : list Z :=
  <[k := Z.lxor (nth k h 0) v]> h.

(** The body of the loop of [checkSum] at position [i], where [x] is
    [q.data[i]] and [h] the scratch array. *)
Definition checkSum_step (x : Z) (i : Z) (h : list Z) : list Z :=
  let shift := (i * 11) mod 160 in
  let shiftBytes := Z.to_nat (shift / 8) in
  let shiftBits := shift mod 8 in
  let shifted := Z.shiftl x shiftBits in
  let h := xor_at shiftBytes (byte shifted) h in
  xor_at (shiftBytes + 1) (byte (Z.shiftr shifted 8)) h.

(** [for i := range dataSize { ... q.data[i] ... }]: the array [q.data]
    is walked from position [i] on. *)
Fixpoint checkSum_loop (d : list Z) (i : Z) (h : list Z) : list Z :=
  match d with
  | [] => h
  | x :: d' => checkSum_loop d' (i + 1) (checkSum_step x i h)
  end.

(** [func (q *quickXorHash) checkSum() (h [Size + 1]byte)] *)
Definition checkSum : M (list Z) :=
  d ← get_data;
  sz ← get_size;
  let h := checkSum_loop d 0 (replicate (Size + 1) 0) in
  let h := xor_at 0 (nth 20 h 0) h in
  let h := xor_at (Size - 8) (byte (Z.shiftr sz (8 * 0))) h in
  let h := xor_at (Size - 7) (byte (Z.shiftr sz (8 * 1))) h in
  let h := xor_at (Size - 6) (byte (Z.shiftr sz (8 * 2))) h in
  let h := xor_at (Size - 5) (byte (Z.shiftr sz (8 * 3))) h in
  let h := xor_at (Size - 4) (byte (Z.shiftr sz (8 * 4))) h in
  let h := xor_at (Size - 3) (byte (Z.shiftr sz (8 * 5))) h in
  let h := xor_at (Size - 2) (byte (Z.shiftr sz (8 * 6))) h in
  let h := xor_at (Size - 1) (byte (Z.shiftr sz (8 * 7))) h in
  mret h.

(** [func (q *quickXorHash) Sum(b []byte) []byte] *)
Definition Sum (b : list Z) : M (list Z) :=
  hash ← checkSum;
  mret (b ++ take Size hash).

(** [func (q *quickXorHash) Reset()] *)
Definition Reset : M unit := fun _ => (tt, New).

End quickxorhash.

(** ** encoding/base64 and encoding/hex (Go standard library) *)

Definition encodeStd : string :=
  "ABCDEFGHIJKLMNOPQRSTUVWXYZabcdefghijklmnopqrstuvwxyz0123456789+/".

Definition b64char (x : Z) : ascii :=
  match String.get (Z.to_nat x) encodeStd with
  | Some c => c
  | None => "="%char
  end.

(** [base64.StdEncoding.EncodeToString]: three bytes give four characters
    of six bits each; a tail of one or two bytes is padded with [=]. *)
Fixpoint base64_encode (src : list Z) : list ascii :=
  match src with
  | a :: b :: c :: rest =>
      let v := Z.lor (Z.lor (Z.shiftl a 16) (Z.shiftl b 8)) c in
      b64char (Z.land (Z.shiftr v 18) 63) ::
      b64char (Z.land (Z.shiftr v 12) 63) ::
      b64char (Z.land (Z.shiftr v 6) 63) ::
      b64char (Z.land v 63) :: base64_encode rest
  | [a; b] =>
      let v := Z.lor (Z.shiftl a 16) (Z.shiftl b 8) in
      [b64char (Z.land (Z.shiftr v 18) 63);
       b64char (Z.land (Z.shiftr v 12) 63);
       b64char (Z.land (Z.shiftr v 6) 63); "="%char]
  | [a] =>
      let v := Z.shiftl a 16 in
      [b64char (Z.land (Z.shiftr v 18) 63);
       b64char (Z.land (Z.shiftr v 12) 63); "="%char; "="%char]
  | [] => []
  end.

Definition base64_EncodeToString (src : list Z) : string :=
  string_of_list_ascii (base64_encode src).

Definition hextable : string := "0123456789abcdef".

Definition hexchar (x : Z) : ascii :=
  match String.get (Z.to_nat x) hextable with
  | Some c => c
  | None => "0"%char
  end.

(** [hex.EncodeToString]: two lowercase digits per byte, high nibble first. *)
Definition hex_EncodeToString (src : list Z) : string :=
  string_of_list_ascii
    (flat_map (fun v => [hexchar (Z.shiftr v 4); hexchar (Z.land v 15)]) src).

(** ** strings and path/filepath (Go standard library)

    The functions below are the standard library's, restricted to what
    this program relies on: strings are taken byte-wise (ASCII letters
    and ASCII white space), and paths are Unix paths, whose separator is
    the slash. *)

Definition is_upper (c : ascii) : bool :=
  let n := nat_of_ascii c in (65 <=? n)%nat && (n <=? 90)%nat.

Definition lower_ascii (c : ascii) : ascii :=
  if is_upper c then ascii_of_nat (nat_of_ascii c + 32) else c.

(** [strings.ToLower] *)
Fixpoint strings_ToLower (s : string) : string :=
  match s with
  | EmptyString => EmptyString
  | String c s' => String (lower_ascii c) (strings_ToLower s')
  end.

(** White space for [strings.TrimSpace]: tab, line feed, vertical tab,
    form feed, carriage return and space. *)
Definition is_space (c : ascii) : bool :=
  let n := nat_of_ascii c in
  ((9 <=? n)%nat && (n <=? 13)%nat) || (n =? 32)%nat.

Fixpoint trim_left (s : string) : string :=
  match s with
  | String c s' => if is_space c then trim_left s' else s
  | EmptyString => EmptyString
  end.

(** Drops the white space at the end: the result is empty exactly when
    nothing but white space is left. *)
Fixpoint trim_right (s : string) : string :=
  match s with
  | EmptyString => EmptyString
  | String c s' =>
      match trim_right s' with
      | EmptyString => if is_space c then EmptyString else String c EmptyString
      | t => String c t
      end
  end.

(** [strings.TrimSpace] *)
Definition strings_TrimSpace (s : string) : string :=
  trim_right (trim_left s).

(** [strings.Split(s, sep)] for a one-byte separator: the pieces between
    the separators, at least one piece. *)
Fixpoint strings_Split (s : string) (sep : ascii) : list string :=
  match s with
  | EmptyString => [EmptyString]
  | String c s' =>
      if Ascii.eqb c sep then EmptyString :: strings_Split s' sep
      else match strings_Split s' sep with
           | piece :: pieces => String c piece :: pieces
           | [] => [String c EmptyString]
           end
  end.

(** [strings.HasPrefix] *)
Definition strings_HasPrefix (s prefix : string) : bool :=
  String.prefix prefix s.

(** A string of ASCII bytes. On such strings the functions above are
    Go's: [strings.ToLower] takes its byte-wise path when every byte is
    below [utf8.RuneSelf], and [strings.TrimSpace] meets nothing but the
    six ASCII white-space bytes. *)
Definition ascii_only (s : string) : Prop :=
  Forall (fun c => (nat_of_ascii c < 128)%nat) (list_ascii_of_string s).

(** [strings.Join] *)
Definition strings_Join (elems : list string) (sep : string) : string :=
  String.concat sep elems.

(** [sort.Strings]: ascending byte-wise order. *)
Definition sort_Strings (l : list string) : list string :=
  merge_sort (fun a b => Is_true (String.leb a b)) l.

Definition Separator : ascii := "/"%char.

Definition IsPathSeparator (c : ascii) : bool := Ascii.eqb c Separator.

(** The loop of [filepath.Ext], which walks the path from its last byte
    back: [rev_path] is what is still to be visited, last byte first, and
    [seen] the bytes already passed, in path order. *)
Fixpoint ext_loop (rev_path seen : list ascii) : list ascii :=
  match rev_path with
  | [] => []
  | c :: rest =>
      if IsPathSeparator c then []
      else if Ascii.eqb c "."%char then c :: seen
      else ext_loop rest (c :: seen)
  end.

(** [filepath.Ext] *)
Definition filepath_Ext (path : string) : string :=
  string_of_list_ascii (ext_loop (rev (list_ascii_of_string path)) []).

(** [filepath.ToSlash]: the separator is already the slash. *)
Definition filepath_ToSlash (path : string) : string := path.

(** The two loops of [filepath.Base] over the path read from its end. *)
Fixpoint strip_seps (rev_path : list ascii) : list ascii :=
  match rev_path with
  | c :: rest => if IsPathSeparator c then strip_seps rest else rev_path
  | [] => []
  end.

Fixpoint last_element (rev_path seen : list ascii) : list ascii :=
  match rev_path with
  | [] => seen
  | c :: rest =>
      if IsPathSeparator c then seen else last_element rest (c :: seen)
  end.

(** [filepath.Base] (a Unix path has no volume name) *)
Definition filepath_Base (path : string) : string :=
  match path with
  | EmptyString => "."%string
  | _ =>
      match last_element (strip_seps (rev (list_ascii_of_string path))) [] with
      | [] => String Separator EmptyString
      | l => string_of_list_ascii l
      end
  end.

(** The matching of [filepath.Match] for patterns made of literal bytes,
    [?] (one byte other than the separator) and [*] (any run of bytes
    other than the separator); character classes and escapes are not
    covered. The error result of [filepath.Match], which the filter
    discards, is left out. *)
Fixpoint glob_match (pattern : list ascii) : list ascii -> bool :=
  match pattern with
  | [] => fun name => match name with [] => true | _ => false end
  | pc :: pattern' =>
      if Ascii.eqb pc "*"%char then
        fix star (name : list ascii) : bool :=
          glob_match pattern' name ||
          match name with
          | c :: name' => negb (Ascii.eqb c Separator) && star name'
          | [] => false
          end
      else if Ascii.eqb pc "?"%char then
        fun name =>
          match name with
          | c :: name' =>
              negb (Ascii.eqb c Separator) && glob_match pattern' name'
          | [] => false
          end
      else
        fun name =>
          match name with
          | c :: name' => Ascii.eqb pc c && glob_match pattern' name'
          | [] => false
          end
  end.

Definition filepath_Match (pattern name : string) : bool :=
  glob_match (list_ascii_of_string pattern) (list_ascii_of_string name).

(** ** Derived operations on the QuickXor accumulator *)

Section QuickXorReading.

Import quickxorhash.

(** The digest of a whole input: [New], one [Write], [Sum(nil)]. *)
Definition quickxor_digest (input : list Z) : list Z :=
  fst (Sum [] (snd (Write input New))).

(** What [Write] is meant to do, one byte at a time: byte [b] is XORed into
    the buffer at the current position, which then advances modulo
    [dataSize]. *)
Fixpoint xor_circ (d : list Z) (pos : nat) (p : list Z) : list Z :=
  match p with
  | [] => d
  | b :: p' =>
      xor_circ (<[pos := Z.lxor b (nth pos d 0)]> d)
               (S pos mod dataSize)%nat p'
  end.

(** The accumulator invariant: a full buffer and a counter that fits
    [uint64]. *)
Definition well_formed (q : quickXorHash) : Prop :=
  length (data q) = dataSize /\ 0 <= size q < 2 ^ 64.

(** [q.Write(c)], keeping only the accumulator. *)
Definition absorb (c : list Z) (q : quickXorHash) : quickXorHash :=
  snd (Write c q).

(** [q.Write(c1); ...; q.Write(cn)]. *)
Definition absorb_all (chunks : list (list Z)) (q : quickXorHash)
  : quickXorHash :=
  fold_left (fun q c => absorb c q) chunks q.

(** [q.Sum(nil)], keeping only the digest. *)
Definition finalize (q : quickXorHash) : list Z := fst (Sum [] q).

(** The largest length of a Go slice on a 64-bit platform. *)
Definition maxInt : Z := 2 ^ 63 - 1.

End QuickXorReading.

(** ** hash/crc32 (Go standard library), IEEE polynomial *)

Module crc32.

Definition IEEE : Z := 0xedb88320.
Definition Size : Z := 4.

(** One turn of the inner loop of [simpleMakeTable]. *)
Definition table_bit (crc : Z) : Z :=
  if Z.odd crc then Z.lxor (Z.shiftr crc 1) IEEE else Z.shiftr crc 1.

(** [simpleMakeTable(IEEE)[i]] *)
Definition table (i : Z) : Z :=
  table_bit (table_bit (table_bit (table_bit
    (table_bit (table_bit (table_bit (table_bit i))))))).

(** [^crc] on [uint32]. *)
Definition not32 (crc : Z) : Z := Z.lxor crc 0xffffffff.

(** [simpleUpdate(crc, tab, p)] *)
Definition simpleUpdate (crc : Z) (p : list Z) : Z :=
  let crc := not32 crc in
  let crc :=
    fold_left (fun crc v => Z.lxor (table (Z.lxor (byte crc) v))
                                   (Z.shiftr crc 8)) p crc in
  not32 crc.

(** [type digest struct { crc uint32; tab *Table }], [Write] and [Sum]. *)
Definition New : Z := 0.

Definition Write (p : list Z) (crc : Z) : Z := simpleUpdate crc p.

Definition Sum (b : list Z) (crc : Z) : list Z :=
  b ++ [byte (Z.shiftr crc 24); byte (Z.shiftr crc 16);
        byte (Z.shiftr crc 8); byte crc].

End crc32.

(** ** internal/hasher *)

Module hasher.

(** A value of Go's interface [hash.Hash], as far as the fan-out uses it:
    an accumulator of some type, with its [Write] and [Sum] methods.
    [Write] of a [hash.Hash] never returns an error and takes all of [p],
    so only the accumulator after the call is kept. *)
Record Hash : Type := mkHash {
  hstate : Type;
  cur : hstate;
  write : list Z -> hstate -> hstate;
  sum : list Z -> hstate -> list Z
}.

(** [h.Write(p)] and [h.Sum(b)] through the interface. *)
Definition Hash_Write (p : list Z) (h : Hash) : Hash :=
  mkHash (hstate h) (write h p (cur h)) (write h) (sum h).

Definition Hash_Sum (b : list Z) (h : Hash) : list Z := sum h b (cur h).

(** [type Hasher interface { Name; New; OutputSize; IsBase64 }] *)
Record Hasher : Type := mkHasher {
  Name : string;
  New : Hash;
  OutputSize : Z;
  IsBase64 : bool
}.

(** A [*quickXorHash] as a [hash.Hash]. *)
Definition quickXorHash_Hash (q : quickxorhash.quickXorHash) : Hash :=
  mkHash quickxorhash.quickXorHash q
    (fun p q => snd (quickxorhash.Write p q))
    (fun b q => fst (quickxorhash.Sum b q)).

(** quickxor.go *)
Definition quickxorHasher : Hasher :=
  mkHasher "quickxor" (quickXorHash_Hash quickxorhash.New)
    (Z.of_nat quickxorhash.Size) true.

(** stdlib.go, [crc32Hasher] *)
Definition crc32Hasher : Hasher :=
  mkHasher "crc32" (mkHash Z crc32.New crc32.Write crc32.Sum)
    crc32.Size false.

(** A byte source as [io.Copy] sees it: the chunks its [Read] calls
    deliver one after the other, and how it ends, at [io.EOF] ([None]) or
    with a read error. *)
Record Reader : Type := mkReader {
  chunks : list (list Z);
  read_error : option string
}.

(** [io.MultiWriter(writers...).Write(p)]: every writer gets [p], in
    order. *)
Definition MultiWriter_Write (p : list Z) (writers : list Hash)
  : list Hash :=
  map (Hash_Write p) writers.

(** [io.Copy(mw, r)]: every non-empty chunk read is written; the result is
    the error that ended the reading, if it was not [io.EOF]. *)
Definition io_Copy (writers : list Hash) (r : Reader)
  : list Hash * option string :=
  (fold_left (fun ws c => if (length c =? 0)%nat then ws
                          else MultiWriter_Write c ws)
             (chunks r) writers,
   read_error r).

Inductive result (A : Type) : Type :=
  | Ok (a : A)
  | Err (e : string).
Arguments Ok {A} a.
Arguments Err {A} e.

(** The body of the loop that collects the results. *)
Definition collect (results : gmap string string) (hh : Hasher * Hash)
  : gmap string string :=
  let (h, hash) := hh in
  let sum := Hash_Sum [] hash in
  if IsBase64 h then <[Name h := base64_EncodeToString sum]> results
  else <[Name h := hex_EncodeToString sum]> results.

(** [func HashReader(r io.Reader, hashers []Hasher)
      (map[string]string, error)] *)
Definition HashReader (r : Reader) (hashers : list Hasher)
  : result (gmap string string) :=
  if (length hashers =? 0)%nat then Err "no hashers provided"
  else
    let hashes := map New hashers in
    match io_Copy hashes r with
    | (_, Some err) => Err ("failed to read data: " ++ err)
    | (hashes, None) => Ok (fold_left collect (zip hashers hashes) ∅)
    end.

(** *** registry.go *)

(** [Register] *)
Definition Register (h : Hasher) (registry : gmap string Hasher)
  : gmap string Hasher :=
  <[strings_ToLower (Name h) := h]> registry.

Inductive ParseError : Type :=
  | NoAlgorithms
  | UnknownAlgorithm (name : string) (available : string)
  | NoValidAlgorithms.

Section Registry.

(** The accumulators of the libraries the adapters wrap: crypto/md5,
    crypto/sha1, crypto/sha256, crypto/sha512, zeebo/blake3 and
    zeebo/xxh3. *)
Variables md5_New sha1_New sha256_New sha512_New blake3_New : Hash.
Variable xxh3_Hasher : Type.
Variable xxh3_New : xxh3_Hasher.
Variable xxh3_Write : list Z -> xxh3_Hasher -> xxh3_Hasher.
Variable xxh3_Sum64 : xxh3_Hasher -> Z.
Variable xxh3_Sum128 : xxh3_Hasher -> Z * Z.

(** stdlib.go and blake3.go *)
Definition md5Hasher : Hasher := mkHasher "md5" md5_New 16 false.
Definition sha1Hasher : Hasher := mkHasher "sha1" sha1_New 20 false.
Definition sha256Hasher : Hasher := mkHasher "sha256" sha256_New 32 false.
Definition sha512Hasher : Hasher := mkHasher "sha512" sha512_New 64 false.
Definition blake3Hasher : Hasher := mkHasher "blake3" blake3_New 32 false.

(** [binary.BigEndian.PutUint64] *)
Definition PutUint64 (v : Z) : list Z :=
  [byte (Z.shiftr v 56); byte (Z.shiftr v 48); byte (Z.shiftr v 40);
   byte (Z.shiftr v 32); byte (Z.shiftr v 24); byte (Z.shiftr v 16);
   byte (Z.shiftr v 8); byte v].

(** xxhash.go: [xxh3Hash64] and [xxh3Hash128] *)
Definition xxh3Hash64 : Hash :=
  mkHash xxh3_Hasher xxh3_New xxh3_Write
    (fun b x => b ++ PutUint64 (xxh3_Sum64 x)).

Definition xxh3Hash128 : Hash :=
  mkHash xxh3_Hasher xxh3_New xxh3_Write
    (fun b x => let (hi, lo) := xxh3_Sum128 x in
                b ++ PutUint64 hi ++ PutUint64 lo).

Definition xxh3Hasher : Hasher := mkHasher "xxh3" xxh3Hash64 8 false.
Definition xxh128Hasher : Hasher := mkHasher "xxh128" xxh3Hash128 16 false.

(** The registry after every [init] has run. *)
Definition registry : gmap string Hasher :=
  Register xxh128Hasher (Register xxh3Hasher
  (Register crc32Hasher (Register sha512Hasher (Register sha256Hasher
  (Register sha1Hasher (Register md5Hasher
  (Register quickxorHasher (Register blake3Hasher ∅)))))))).

(** [Get] *)
Definition Get (name : string) : option Hasher :=
  registry !! strings_ToLower name.

(** [List] *)
Definition List : list string :=
  sort_Strings (map fst (map_to_list registry)).

(** The loop of [Parse] over the parts of the list, [seen] being the
    names met so far and [hashers] the selection built so far. *)
Fixpoint parse_loop (parts : list string) (seen : gmap string bool)
    (hashers : list Hasher) : ParseError + list Hasher :=
  match parts with
  | [] => inr hashers
  | part :: parts' =>
      let name := strings_TrimSpace (strings_ToLower part) in
      if String.eqb name "" then parse_loop parts' seen hashers
      else if default false (seen !! name)
      then parse_loop parts' seen hashers
      else
        let seen := <[name := true]> seen in
        match Get name with
        | None => inl (UnknownAlgorithm name (strings_Join List ", "))
        | Some h => parse_loop parts' seen (hashers ++ [h])
        end
  end.

(** [func Parse(names string) ([]Hasher, error)] *)
Definition Parse (names : string) : ParseError + list Hasher :=
  if String.eqb names "" then inl NoAlgorithms
  else
    match parse_loop (strings_Split names ","%char) ∅ [] with
    | inl e => inl e
    | inr hashers =>
        if (length hashers =? 0)%nat then inl NoValidAlgorithms
        else inr hashers
    end.

End Registry.

End hasher.

(** ** internal/scanner *)

Module scanner.

Import hasher.

(** *** filter.go *)

Record FilterOptions : Type := mkFilter {
  MaxSize : Z;
  MinSize : Z;
  IncludeExts : list string;
  ExcludeExts : list string;
  IncludeGlobs : list string;
  ExcludeGlobs : list string
}.

(** [normalizeExt] *)
Definition normalizeExt (ext : string) : string :=
  if String.eqb ext "" then ""%string
  else if negb (strings_HasPrefix ext ".") then ("." ++ ext)%string
  else ext.

(** [for _, e := range exts { if strings.ToLower(normalizeExt(e)) == ext
    { ... } }]: whether the body is reached for some entry. *)
Fixpoint ext_listed (exts : list string) (ext : string) : bool :=
  match exts with
  | [] => false
  | e :: exts' =>
      if String.eqb (strings_ToLower (normalizeExt e)) ext then true
      else ext_listed exts' ext
  end.

(** [matchExtension] *)
Definition matchExtension (f : FilterOptions) (path : string) : bool :=
  let ext := strings_ToLower (filepath_Ext path) in
  if (0 <? length (IncludeExts f))%nat then
    if ext_listed (IncludeExts f) ext then true else false
  else if (0 <? length (ExcludeExts f))%nat then
    if ext_listed (ExcludeExts f) ext then false else true
  else true.

(** [for _, pattern := range patterns { ... }] with the two calls of
    [filepath.Match], on the full path and on the base name: whether one
    of them reports a match for some pattern. *)
Fixpoint glob_listed (patterns : list string)
    (normalizedPath baseName : string) : bool :=
  match patterns with
  | [] => false
  | pattern :: patterns' =>
      if filepath_Match pattern normalizedPath then true
      else if filepath_Match pattern baseName then true
      else glob_listed patterns' normalizedPath baseName
  end.

(** [matchGlob] *)
Definition matchGlob (f : FilterOptions) (path : string) : bool :=
  let normalizedPath := filepath_ToSlash path in
  let baseName := filepath_Base path in
  if (0 <? length (IncludeGlobs f))%nat
     && negb (glob_listed (IncludeGlobs f) normalizedPath baseName)
  then false
  else if (0 <? length (ExcludeGlobs f))%nat
          && glob_listed (ExcludeGlobs f) normalizedPath baseName
  then false
  else true.

(** [func (f *FilterOptions) Match(path string, size int64) bool] *)
Definition Match (f : FilterOptions) (path : string) (size : Z) : bool :=
  if (0 <? MaxSize f) && (MaxSize f <? size) then false
  else if (0 <? MinSize f) && (size <? MinSize f) then false
  else if negb (matchExtension f path) then false
  else if negb (matchGlob f path) then false
  else true.

(** *** result.go and the file system *)

Record Result : Type := mkResult {
  Path : string;
  Size : Z;
  Hashes : option (gmap string string);
  Error : option string
}.

(** [IsError] *)
Definition IsError (r : Result) : bool :=
  match Error r with Some _ => true | None => false end.

(** [fs.FileInfo], as far as the scanner reads it. *)
Record FileInfo : Type := mkInfo {
  IsDir : bool;
  info_Size : Z
}.

(** The file system a scan runs against: what [os.Stat] and [os.Open]
    answer for a path, and what [filepath.Abs] makes of it. An error is
    its message. *)
Record FS : Type := mkFS {
  fs_Stat : string -> FileInfo + string;
  fs_Open : string -> Reader + string;
  fs_Abs : string -> string + string
}.

(** The calls a scan makes into the file system, in the order made. *)
Inductive Op : Type :=
  | OpStat (path : string)
  | OpOpen (path : string)
  | OpRead (path : string).

(** A computation that consults the file system and leaves a trace of
    its calls. *)
Definition IO (A : Type) : Type := FS -> A * list Op.

#[global] Instance IO_ret : MRet IO := fun A a _ => (a, []).
#[global] Instance IO_bind : MBind IO :=
  fun A B k m fs =>
    let (a, t1) := m fs in
    let (b, t2) := k a fs in
    (b, t1 ++ t2).

Definition os_Stat (path : string) : IO (FileInfo + string) :=
  fun fs => (fs_Stat fs path, [OpStat path]).

Definition os_Open (path : string) : IO (Reader + string) :=
  fun fs => (fs_Open fs path, [OpOpen path]).

(** [hasher.HashReader] on the open file [f] of [path]: the file is read,
    unless there is no hasher and the call fails before its first read. *)
Definition HashReader_file (path : string) (f : Reader)
    (hashers : list Hasher) : IO (result (gmap string string)) :=
  fun _ => (HashReader f hashers,
            if (length hashers =? 0)%nat then [] else [OpRead path]).

Definition filepath_Abs (path : string) : IO (string + string) :=
  fun fs => (fs_Abs fs path, []).

(** [fs.ErrInvalid] *)
Definition ErrInvalid : string := "invalid argument".

(** [hasher.HashFile] *)
Definition HashFile (path : string) (hashers : list Hasher)
  : IO (result (gmap string string)) :=
  o ← os_Open path;
  match o with
  | inr err => mret (Err ("failed to open file: " ++ err))
  | inl f => HashReader_file path f hashers
  end.

(** *** scanner.go *)

Inductive ErrorStrategy : Type := SkipOnError | FailOnError.

#[global] Instance ErrorStrategy_eq_dec : EqDecision ErrorStrategy.
Proof. solve_decision. Defined.

Record Scanner : Type := mkScanner {
  Workers : nat;
  Filter : option FilterOptions;
  Hashers : list Hasher;
  OnError : ErrorStrategy;
  Recursive : bool;
  AbsolutePath : bool
}.

(** [s.Filter != nil && !s.Filter.Match(path, size)] *)
Definition filtered_out (s : Scanner) (path : string) (size : Z) : bool :=
  match Filter s with
  | Some f => negb (Match f path size)
  | None => false
  end.

(** The tail shared by [ScanFile] and [processFile]: hash the file, pick
    the path to report, build the [Result]. *)
Definition hash_and_report (s : Scanner) (path : string) (info : FileInfo)
  : IO (option Result) :=
  h ← HashFile path (Hashers s);
  outputPath ←
    (if AbsolutePath s then
       a ← filepath_Abs path;
       mret (match a with inl abs => abs | inr _ => path end)
     else mret path);
  mret (Some (match h with
              | Ok hashes =>
                  mkResult outputPath (info_Size info) (Some hashes) None
              | Err err =>
                  mkResult outputPath (info_Size info) None (Some err)
              end)).

(** [func (s *Scanner) ScanFile(path string) *Result]; [None] is the nil
    pointer. *)
Definition ScanFile (s : Scanner) (path : string) : IO (option Result) :=
  st ← os_Stat path;
  match st with
  | inr err => mret (Some (mkResult path 0 None (Some err)))
  | inl info =>
      if IsDir info then mret (Some (mkResult path 0 None (Some ErrInvalid)))
      else if filtered_out s path (info_Size info) then mret None
      else hash_and_report s path info
  end.

(** [func (s *Scanner) processFile(path string) *Result] *)
Definition processFile (s : Scanner) (path : string) : IO (option Result) :=
  st ← os_Stat path;
  match st with
  | inr err => mret (Some (mkResult path 0 None (Some err)))
  | inl info => hash_and_report s path info
  end.

(** [fs.DirEntry], as [walkFn] reads it. *)
Record DirEntry : Type := mkEntry {
  d_IsDir : bool;
  d_Info : FileInfo + string
}.

Inductive WalkRet : Type := WalkNil | WalkSkipDir | WalkErr (err : string).

(** The callback [walkFn] of [ScanDir] for one visit of the walk of
    [dir]; it may append to [files] and may send a [Result], which are
    returned next to what the callback returns to the walk. *)
Definition walkFn (s : Scanner) (dir : string) (path : string)
    (d : DirEntry) (err : option string) (files : list string)
  : WalkRet * list string * list Result :=
  match err with
  | Some e =>
      if decide (OnError s = FailOnError) then (WalkErr e, files, [])
      else (WalkNil, files, [mkResult path 0 None (Some e)])
  | None =>
      if d_IsDir d then
        if negb (Recursive s) && negb (String.eqb path dir)
        then (WalkSkipDir, files, [])
        else (WalkNil, files, [])
      else
        match d_Info d with
        | inr e =>
            if decide (OnError s = FailOnError) then (WalkErr e, files, [])
            else (WalkNil, files, [mkResult path 0 None (Some e)])
        | inl info =>
            if filtered_out s path (info_Size info)
            then (WalkNil, files, [])
            else (WalkNil, files ++ [path], [])
        end
  end.

(** *** The worker pool of [ScanFiles] and [ScanDir]

    A worker goroutine is either about to process its path or about to
    send the [Result] it got. *)
Inductive Worker : Type :=
  | Processing (path : string)
  | Sending (r : Result).

(** How the worker of [ScanFiles] leaves its function after the send:
    through the [return] under [FailOnError], or off its end. Either way
    the deferred function runs, which frees the slot. *)
Inductive Exit : Type := ReturnEarly | FallOff.

Definition after_send (s : Scanner) (r : Result) : Exit :=
  if IsError r && bool_decide (OnError s = FailOnError)
  then ReturnEarly else FallOff.

Definition release (e : Exit) (before after : list Worker) : list Worker :=
  match e with
  | ReturnEarly => before ++ after
  | FallOff => before ++ after
  end.

(** The state of one call: the paths the loop has still to dispatch, the
    workers in flight (each holds a slot of [sem]), the buffer of the
    [results] channel, what the consumer has received, whether the
    channel is closed, and, for the record, the paths dispatched so far
    and the file-system calls made. *)
Record Pool : Type := mkPool {
  todo : list string;
  running : list Worker;
  results : list Result;
  received : list Result;
  closed : bool;
  dispatched : list string;
  trace : list Op
}.

Definition start (paths : list string) : Pool :=
  mkPool paths [] [] [] false [] [].

Section Pool.

Variable s : Scanner.
Variable fs : FS.
(** The per-path function of the workers: [s.ScanFile] in [ScanFiles],
    [s.processFile] in [ScanDir]. *)
Variable process : Scanner -> string -> IO (option Result).
(** How a worker leaves its function after the send. *)
Variable leave : Scanner -> Result -> Exit.

Inductive step : Pool -> Pool -> Prop :=
  | step_dispatch path paths ws rs rcv d t :
      (* sem <- struct{}{}; wg.Add(1); go func() *)
      (length ws < Workers s)%nat ->
      step (mkPool (path :: paths) ws rs rcv false d t)
           (mkPool paths (ws ++ [Processing path]) rs rcv false
                   (d ++ [path]) t)
  | step_process_result path r ops paths before after rs rcv d t :
      (* result := process(path); result != nil *)
      process s path fs = (Some r, ops) ->
      step (mkPool paths (before ++ Processing path :: after) rs rcv false d t)
           (mkPool paths (before ++ Sending r :: after) rs rcv false d
                   (t ++ ops))
  | step_process_nil path ops paths before after rs rcv d t :
      (* result := process(path); result == nil *)
      process s path fs = (None, ops) ->
      step (mkPool paths (before ++ Processing path :: after) rs rcv false d t)
           (mkPool paths (before ++ after) rs rcv false d (t ++ ops))
  | step_send r paths before after rs rcv d t :
      (* results <- result, then the worker ends *)
      (length rs < Workers s * 2)%nat ->
      step (mkPool paths (before ++ Sending r :: after) rs rcv false d t)
           (mkPool paths (release (leave s r) before after)
                   (rs ++ [r]) rcv false d t)
  | step_receive r paths ws rs rcv c d t :
      (* the consumer takes the next Result *)
      step (mkPool paths ws (r :: rs) rcv c d t)
           (mkPool paths ws rs (rcv ++ [r]) c d t)
  | step_close rs rcv d t :
      (* wg.Wait() returns; close(results) *)
      step (mkPool [] [] rs rcv false d t)
           (mkPool [] [] rs rcv true d t).

(** Any number of steps. *)
Definition steps : Pool -> Pool -> Prop := rtc step.

(** The call is over: the channel is closed and drained. *)
Definition finished (p : Pool) : Prop :=
  closed p = true /\ results p = [].

End Pool.

(** [ScanFiles] runs the pool over [paths] with [ScanFile]; the second
    phase of [ScanDir] runs it over the collected files with
    [processFile]. *)
Definition ScanFiles_run (s : Scanner) (fs : FS) (paths : list string)
    (final : Pool) : Prop :=
  steps s fs ScanFile after_send (start paths) final /\ finished final.

Definition ScanDir_run (s : Scanner) (fs : FS) (files : list string)
    (final : Pool) : Prop :=
  steps s fs processFile (fun _ _ => FallOff) (start files) final
  /\ finished final.

End scanner.

(** ** Running one algorithm alone *)

(** The canonical text of a digest of algorithm [A]: base64 for an
    algorithm that asks for it, lowercase hexadecimal otherwise. *)
Definition encode (A : hasher.Hasher) (digest : list Z) : string :=
  if hasher.IsBase64 A then base64_EncodeToString digest
  else hex_EncodeToString digest.

(** [io.Copy(h, r)] into a single accumulator. *)
Definition copy_alone (h : hasher.Hash) (r : hasher.Reader) : hasher.Hash :=
  fold_left (fun h c => if (length c =? 0)%nat then h
                        else hasher.Hash_Write c h)
            (hasher.chunks r) h.

(** [runAlone(A, b)] of the specification: a fresh accumulator of [A]
    reads the source by itself, is finalized and its digest encoded. *)
Definition runAlone (A : hasher.Hasher) (r : hasher.Reader)
  : hasher.result string :=
  match hasher.read_error r with
  | Some err => hasher.Err ("failed to read data: " ++ err)
  | None =>
      hasher.Ok (encode A (hasher.Hash_Sum [] (copy_alone (hasher.New A) r)))
  end.

(** ** Reading [Parse] *)

(** The name [Parse] looks an entry up under. *)
Definition entry_name (part : string) : string :=
  strings_TrimSpace (strings_ToLower part).


(** ** Reading a run of the worker pool *)

Section PoolReading.

Import scanner.

Variable s : Scanner.
Variable fs : FS.
Variable process : Scanner -> string -> IO (option Result).

(** What processing [path] puts into the result stream: its [Result], or
    nothing when the per-path function returns nil. *)
Definition outcome (path : string) : list Result :=
  option_list (fst (process s path fs)).

(** What a worker in flight is still going to send. *)
Definition pending (w : Worker) : list Result :=
  match w with
  | Processing path => outcome path
  | Sending r => [r]
  end.

(** Everything a pool has delivered or is still going to deliver. *)
Definition stream (p : Pool) : list Result :=
  received p ++ results p ++ flat_map pending (running p)
  ++ flat_map outcome (todo p).

End PoolReading.

(** The path a [Result] reports for [path]. *)
Definition output_path (s : scanner.Scanner) (fs : scanner.FS)
    (path : string) : string :=
  if scanner.AbsolutePath s then
    match scanner.fs_Abs fs path with inl abs => abs | inr _ => path end
  else path.

(** The [Result] and the trace of hashing the file at [path]: the open,
    the one reading pass of the fan-out over all the hashers (none when
    there is no hasher), and the record built from what the fan-out
    returns. *)
Definition hashed (s : scanner.Scanner) (fs : scanner.FS) (path : string)
    (info : scanner.FileInfo) : option scanner.Result * list scanner.Op :=
  let out := output_path s fs path in
  let size := scanner.info_Size info in
  match scanner.fs_Open fs path with
  | inr err =>
      (Some (scanner.mkResult out size None
               (Some ("failed to open file: " ++ err)%string)),
       [scanner.OpOpen path])
  | inl f =>
      (Some (match hasher.HashReader f (scanner.Hashers s) with
             | hasher.Ok hashes => scanner.mkResult out size (Some hashes) None
             | hasher.Err err => scanner.mkResult out size None (Some err)
             end),
       scanner.OpOpen path ::
       (if (length (scanner.Hashers s) =? 0)%nat then []
        else [scanner.OpRead path]))
  end.

(** ** Example scans *)

Module examples.

Import hasher scanner.

(** A file system with two readable files, [ok.txt] of 5 bytes and
    [big.bin] of 1000 bytes, and nothing else. *)
Definition fs_two_files : FS :=
  mkFS (fun path => if String.eqb path "ok.txt"
                    then inl (mkInfo false 5)
                    else if String.eqb path "big.bin"
                    then inl (mkInfo false 1000)
                    else inr "no such file or directory"%string)
       (fun path => if String.eqb path "ok.txt"
                    then inl (mkReader [bytes_of_string "hello"] None)
                    else if String.eqb path "big.bin"
                    then inl (mkReader [replicate 1000 0] None)
                    else inr "no such file or directory"%string)
       (fun path => inl ("/work/" ++ path)%string).

(** [fhash -a crc32 -w 1 --on-error fail] *)
Definition fail_fast : Scanner :=
  mkScanner 1 None [crc32Hasher] FailOnError true false.

Definition missing_result : Result :=
  mkResult "missing" 0 None (Some "no such file or directory"%string).

Definition ok_result : Result :=
  mkResult "ok.txt" 5 (Some {[ "crc32"%string := "3610a686"%string ]}) None.

(** The pool of [ScanFiles] over [missing] and [ok.txt] once it is over. *)
Definition both_done : Pool :=
  mkPool [] [] [] [missing_result; ok_result] true
         ["missing"%string; "ok.txt"%string]
         [OpStat "missing"; OpStat "ok.txt"; OpOpen "ok.txt";
          OpRead "ok.txt"].

(** A tree [d] with the entry [d/link], which the walk reports as a
    10-byte non-directory (a symbolic link) and [os.Stat] resolves: to
    the directory [d] itself (its [Read] fails) in [fs_link_to_dir], to a
    file of 1000 bytes in [fs_link_to_file]. *)
Definition link_entry : DirEntry := mkEntry false (inl (mkInfo false 10)).

Definition fs_link_to_dir : FS :=
  mkFS (fun path => inl (mkInfo true 4096))
       (fun path => inl (mkReader [] (Some "read d/link: is a directory"%string)))
       (fun path => inl path).

Definition fs_link_to_file : FS :=
  mkFS (fun path => inl (mkInfo false 1000))
       (fun path => inl (mkReader [replicate 1000 0] None))
       (fun path => inl path).

(** [fhash -a crc32 --max-size 100] *)
Definition at_most_100 : Scanner :=
  mkScanner 4 (Some (mkFilter 100 0 [] [] [] [])) [crc32Hasher]
            SkipOnError true false.

(** The pool of [ScanFiles] over [big.bin], which the filter rejects,
    and [ok.txt], once it is over. *)
Definition only_ok_sent : Pool :=
  mkPool [] [] [] [ok_result] true
         ["big.bin"%string; "ok.txt"%string]
         [OpStat "big.bin"; OpStat "ok.txt"; OpOpen "ok.txt";
          OpRead "ok.txt"].

End examples.

(** ** More of pkg/quickxorhash *)

(** [copy(dst, src)]: the first [min(len dst, len src)] elements of [dst]
    are overwritten with those of [src]. *)
Definition go_copy (dst src : list Z) : list Z :=
  take (length dst) src ++ drop (length src) dst.

(** [func (q *quickXorHash) Size() int] and
    [func (q *quickXorHash) BlockSize() int] *)
Definition quickXorHash_Size : quickxorhash.M Z :=
  mret (Z.of_nat quickxorhash.Size).

Definition quickXorHash_BlockSize : quickxorhash.M Z :=
  mret quickxorhash.BlockSize.

(** [func Sum(data []byte) (h [Size]byte)], the function of the package
    (not the method): a zero accumulator, one [Write], [checkSum], and a
    [copy] of the scratch into the array returned. *)
Definition quickxorhash_Sum (data : list Z) : list Z :=
  let d := snd (quickxorhash.Write data quickxorhash.New) in
  let s := fst (quickxorhash.checkSum d) in
  go_copy (replicate quickxorhash.Size 0) s.

(** A value that fits a byte. *)
Definition is_byte (x : Z) : Prop := 0 <= x < 256.

(** [byte(d >> (8*0)), ..., byte(d >> (8*7))]: the eight low bytes of
    [d], lowest first. *)
Definition le64 (d : Z) : list Z :=
  map (fun k => byte (Z.shiftr d (8 * k))) [0; 1; 2; 3; 4; 5; 6; 7].

(** The accumulator as [Write] keeps it: a full buffer of bytes and a
    counter that fits [uint64]. *)
Definition valid (q : quickxorhash.quickXorHash) : Prop :=
  well_formed q /\ Forall is_byte (quickxorhash.data q).

(** [d[pos] ^= b], the effect of absorbing one byte at [pos]. *)
Definition xor1 (pos : nat) (b : Z) (d : list Z) : list Z :=
  <[pos := Z.lxor b (nth pos d 0)]> d.

(** ** More of internal/hasher *)

(** [binary.BigEndian.Uint64] and its like for any number of bytes: the
    number the bytes spell, highest byte first. *)
Definition BigEndian_value (b : list Z) : Z :=
  fold_left (fun acc x => acc * 256 + x) b 0.

(** [func (x *xxh3Hash64) Size() int] and
    [func (x *xxh3Hash128) Size() int] *)
Definition xxh3Hash64_Size : Z := 8.
Definition xxh3Hash128_Size : Z := 16.

(** What [io.Writer] and [hash.Hash] ask of the [Write] of an
    accumulator: two calls in a row add the bytes one call with the joined
    input adds. *)
Definition streaming (h : hasher.Hash) : Prop :=
  forall (a b : list Z) (s : hasher.hstate h),
    hasher.write h (a ++ b) s = hasher.write h b (hasher.write h a s).

(** The distinct elements of a list in the order of their first
    appearance. *)
Fixpoint first_occurrences (l : list string) : list string :=
  match l with
  | [] => []
  | x :: l' => x :: filter (fun y => y <> x) (first_occurrences l')
  end.

(** A registry to run [Parse] and [Get] on: every library hash is stood
    for by one that ignores what it is given. *)
Module null_registry.

Import hasher.

Definition null_Hash : Hash := mkHash unit tt (fun _ s => s) (fun b _ => b).

Definition Parse : string -> ParseError + list Hasher :=
  hasher.Parse null_Hash null_Hash null_Hash null_Hash null_Hash
               unit tt (fun _ s => s) (fun _ => 0) (fun _ => (0, 0)).

Definition Get : string -> option Hasher :=
  hasher.Get null_Hash null_Hash null_Hash null_Hash null_Hash
             unit tt (fun _ s => s) (fun _ => 0) (fun _ => (0, 0)).

End null_registry.

(** ** More of the filter *)

(** The form in which [matchExtension] compares an entry of an extension
    list: with its leading dot and in lower case. *)
Definition canonical_ext (e : string) : string :=
  strings_ToLower (scanner.normalizeExt e).

(** The filter with its two extension lists rewritten entry by entry. *)
Definition map_exts (g : string -> string) (f : scanner.FilterOptions)
  : scanner.FilterOptions :=
  scanner.mkFilter (scanner.MaxSize f) (scanner.MinSize f)
    (map g (scanner.IncludeExts f)) (map g (scanner.ExcludeExts f))
    (scanner.IncludeGlobs f) (scanner.ExcludeGlobs f).

(** The filter with more entries on its two deny-lists. *)
Definition exclude_more (exts globs : list string)
    (f : scanner.FilterOptions) : scanner.FilterOptions :=
  scanner.mkFilter (scanner.MaxSize f) (scanner.MinSize f)
    (scanner.IncludeExts f) (scanner.ExcludeExts f ++ exts)
    (scanner.IncludeGlobs f) (scanner.ExcludeGlobs f ++ globs).

(** ** More of the Go standard library *)

Definition is_lower_letter (c : ascii) : bool :=
  let n := nat_of_ascii c in (97 <=? n)%nat && (n <=? 122)%nat.

Definition upper_ascii (c : ascii) : ascii :=
  if is_lower_letter c then ascii_of_nat (nat_of_ascii c - 32) else c.

(** [strings.ToUpper], byte-wise as [strings_ToLower] is: Go's function
    on strings of ASCII bytes. *)
Fixpoint strings_ToUpper (s : string) : string :=
  match s with
  | EmptyString => EmptyString
  | String c s' => String (upper_ascii c) (strings_ToUpper s')
  end.

(** [strings.HasSuffix]:
    [len(s) >= len(suffix) && s[len(s)-len(suffix):] == suffix] *)
Definition strings_HasSuffix (s suffix : string) : bool :=
  let l := list_ascii_of_string s in
  let k := list_ascii_of_string suffix in
  (length k <=? length l)%nat
  && bool_decide (drop (length l - length k) l = k).

(** [strings.TrimSuffix]: [s[:len(s)-len(suffix)]] when [s] has the
    suffix, [s] otherwise. *)
Definition strings_TrimSuffix (s suffix : string) : string :=
  if strings_HasSuffix s suffix then
    let l := list_ascii_of_string s in
    let k := list_ascii_of_string suffix in
    string_of_list_ascii (take (length l - length k) l)
  else s.

(** A decimal number without a sign: ASCII digits only. *)
Definition is_digit (c : ascii) : bool :=
  let n := nat_of_ascii c in (48 <=? n)%nat && (n <=? 57)%nat.

Definition digits (d : string) : Prop :=
  Forall (fun c => is_digit c = true) (list_ascii_of_string d).

(** ** cmd/fhash/main.go *)

Module cli.

Import hasher.

(** [int64(z)]: a product of [int64] values wraps around. *)
Definition int64 (z : Z) : Z := (z + 2 ^ 63) mod 2 ^ 64 - 2 ^ 63.

(** [splitAndTrim] *)
Fixpoint splitAndTrim_loop (parts result : list string) : list string :=
  match parts with
  | [] => result
  | p :: parts' =>
      let p := strings_TrimSpace p in
      if negb (String.eqb p "") then splitAndTrim_loop parts' (result ++ [p])
      else splitAndTrim_loop parts' result
  end.

Definition splitAndTrim (s : string) : list string :=
  splitAndTrim_loop (strings_Split s ","%char) [].

Section parseSize.

(** [fmt.Sscanf(s, "%d", &value)]: the integer read from the start of
    [s], or nothing when there is none. *)
Variable Sscanf_d : string -> option Z.

(** The chain of suffix tests of [parseSize]: the multiplier and what is
    left of the string. *)
Definition size_unit (s : string) : Z * string :=
  if strings_HasSuffix s "KB" || strings_HasSuffix s "K" then
    (1024, strings_TrimSuffix (strings_TrimSuffix s "KB") "K")
  else if strings_HasSuffix s "MB" || strings_HasSuffix s "M" then
    (1024 * 1024, strings_TrimSuffix (strings_TrimSuffix s "MB") "M")
  else if strings_HasSuffix s "GB" || strings_HasSuffix s "G" then
    (1024 * 1024 * 1024,
     strings_TrimSuffix (strings_TrimSuffix s "GB") "G")
  else if strings_HasSuffix s "TB" || strings_HasSuffix s "T" then
    (1024 * 1024 * 1024 * 1024,
     strings_TrimSuffix (strings_TrimSuffix s "TB") "T")
  else if strings_HasSuffix s "B" then (1, strings_TrimSuffix s "B")
  else (1, s).

(** [func parseSize(s string) (int64, error)] *)
Definition parseSize (s : string) : result Z :=
  let s := strings_TrimSpace (strings_ToUpper s) in
  if String.eqb s "" then Ok 0
  else
    let (multiplier, s) := size_unit s in
    match Sscanf_d s with
    | None => Err ("invalid size format: " ++ s)
    | Some value => Ok (int64 (value * multiplier))
    end.

(** The filter flags of [Config]. *)
Record Config : Type := mkConfig {
  cfg_MaxSize : string;
  cfg_MinSize : string;
  cfg_IncludeExt : string;
  cfg_ExcludeExt : string;
  cfg_Include : string;
  cfg_Exclude : string
}.

(** [if flag != "" { ... = splitAndTrim(flag) }] on a nil list. *)
Definition list_flag (flag : string) : list string :=
  if negb (String.eqb flag "") then splitAndTrim flag else [].

(** [if flag != "" { size, err := parseSize(flag) ... }] on a zero
    size. *)
Definition size_flag (what flag : string) : result Z :=
  if negb (String.eqb flag "") then
    match parseSize flag with
    | Err err => Err ("invalid " ++ what ++ ": " ++ err)
    | Ok size => Ok size
    end
  else Ok 0.

(** [func parseFilterOptions]: the filter read from the flags, or the
    error of the first size that does not parse. *)
Definition parseFilterOptions (cfg : Config) : result scanner.FilterOptions :=
  match size_flag "max-size" (cfg_MaxSize cfg) with
  | Err err => Err err
  | Ok max =>
      match size_flag "min-size" (cfg_MinSize cfg) with
      | Err err => Err err
      | Ok min =>
          Ok (scanner.mkFilter max min
                (list_flag (cfg_IncludeExt cfg)) (list_flag (cfg_ExcludeExt cfg))
                (list_flag (cfg_Include cfg)) (list_flag (cfg_Exclude cfg)))
      end
  end.

End parseSize.

End cli.

(** ** More of internal/scanner: [ScanFromReader] *)

(** The loop of [ScanFromReader] over the lines its [bufio.Scanner]
    delivers, below: a line is trimmed and kept unless it is then empty or
    starts with [#]. *)
Fixpoint path_lines (lines paths : list string) : list string :=
  match lines with
  | [] => paths
  | text :: lines' =>
      let line := strings_TrimSpace text in
      if negb (String.eqb line "") && negb (strings_HasPrefix line "#")
      then path_lines lines' (paths ++ [line])
      else path_lines lines' paths
  end.

(** [bufio.MaxScanTokenSize]: the size the buffer of a [bufio.Scanner]
    can grow to. *)
Definition MaxScanTokenSize : Z := 64 * 1024.

(** [dropCR]: [data] without the carriage return it ends with, if it ends
    with one. *)
Definition dropCR (data : string) : string :=
  let l := list_ascii_of_string data in
  if (0 <? length l)%nat
     && Ascii.eqb (nth (length l - 1) l Ascii.zero) "013"%char
  then string_of_list_ascii (take (length l - 1) l)
  else data.

(** The tokens [Scan] delivers with [ScanLines], [pieces] being what
    stands between the line feeds of the bytes the reader gives before
    the end of the file or a read error. A piece is delivered without
    its trailing carriage return; the last piece has no line feed after
    it and is no token when it is empty. [Scan] gives up, with the error
    [ErrTooLong] that [ScanFromReader] does not look at, at the first
    piece that does not fit the buffer together with its line feed: a
    piece of [MaxScanTokenSize] bytes or more. *)
Fixpoint scan_lines (pieces : list string) : list string :=
  match pieces with
  | [] => []
  | piece :: rest =>
      if MaxScanTokenSize <=? Z.of_nat (String.length piece) then []
      else
        match rest with
        | [] => if String.eqb piece "" then [] else [dropCR piece]
        | _ :: _ => dropCR piece :: scan_lines rest
        end
  end.

(** What [scanner.Text()] is in the successive rounds of
    [for scanner.Scan()], for a reader that gives the bytes [input]. *)
Definition Scanner_lines (input : string) : list string :=
  scan_lines (strings_Split input "010"%char).

(** [Scanner.ScanFromReader], for a reader that gives the bytes [input]
    before the end of the file or a read error: the paths read are handed
    to [ScanFiles]. *)
Definition ScanFromReader_run (s : scanner.Scanner) (fs : scanner.FS)
    (input : string) (final : scanner.Pool) : Prop :=
  scanner.ScanFiles_run s fs (path_lines (Scanner_lines input) []) final.

(** ** internal/output/text.go *)

Module output.

(** [result.Hashes[algo]]: the empty string for a missing key and for a
    nil map. *)
Definition hash_of (result : scanner.Result) (algo : string) : string :=
  match scanner.Hashes result with
  | Some hashes => default ""%string (hashes !! algo)
  | None => ""%string
  end.

(** [fmt.Sprintf("%s:%s  %s", algo, hash, result.Path)] *)
Definition algo_line (result : scanner.Result) (algo : string) : string :=
  (algo ++ ":" ++ hash_of result algo ++ "  " ++ scanner.Path result)%string.

(** [TextFormatter.Format], the formatter being its list of algorithms. *)
Definition Format (Algorithms : list string) (result : scanner.Result)
  : string :=
  match Algorithms with
  | [algo] => (hash_of result algo ++ "  " ++ scanner.Path result)%string
  | _ =>
      let algos := sort_Strings Algorithms in
      strings_Join (map (algo_line result) algos)
                   (String (ascii_of_nat 10) EmptyString)
  end.

End output.

(** * Theorems *)

(** ** QuickXor *)

Section QuickXorProofs.

Import quickxorhash.

(** C1: the accumulator reproduces the three reference vectors of
    QuickXorHash: the empty input, ["hello"] and ["hello world"] give
    digests of 20 bytes whose standard base64 texts are the published
    ones, where the digest is computed by [checkSum] (rotation by
    [(11*i) mod 160] into a 21-byte scratch, byte 20 folded into byte 0,
    the little-endian byte count XORed into the last eight bytes). *)
Theorem quickxor_reference_vectors :
  Forall (fun input => length (quickxor_digest (bytes_of_string input))
                       = 20%nat)
         [""%string; "hello"%string; "hello world"%string]
  /\ base64_EncodeToString (quickxor_digest (bytes_of_string ""))
    = "AAAAAAAAAAAAAAAAAAAAAAAAAAA="%string
  /\ base64_EncodeToString (quickxor_digest (bytes_of_string "hello"))
    = "aCgDG9jwBgAAAAAABQAAAAAAAAA="%string
  /\ base64_EncodeToString (quickxor_digest (bytes_of_string "hello world"))
    = "aCgDG9jwBhDc4Q1yawMZAAAAAAA="%string.
Proof.
  split; [repeat constructor; vm_compute; reflexivity|].
  split; [|split]; vm_compute; reflexivity.
Qed.

(** *** Chunk independence of [Write] *)

#[local] Arguments Nat.modulo : simpl never.
#[local] Arguments Nat.div : simpl never.
#[local] Arguments Z.modulo : simpl never.
#[local] Arguments Z.pow : simpl never.
#[local] Arguments Z.of_nat : simpl never.

Lemma dataSize_eq : dataSize = 1760%nat.
Proof. reflexivity. Qed.

Lemma dataSize_pos : (0 < dataSize)%nat.
Proof. rewrite dataSize_eq. lia. Qed.

#[local] Opaque dataSize.

Lemma xor_circ_length p : forall d pos,
  length (xor_circ d pos p) = length d.
Proof.
  induction p as [|b p IH]; intros d pos; simpl; [done|].
  by rewrite IH, length_insert.
Qed.

Lemma xor_circ_app a : forall d pos b,
  (pos < dataSize)%nat ->
  xor_circ d pos (a ++ b)
  = xor_circ (xor_circ d pos a) ((pos + length a) mod dataSize)%nat b.
Proof.
  induction a as [|x a IH]; intros d pos b Hpos; simpl.
  - by rewrite Nat.add_0_r, Nat.mod_small.
  - rewrite IH by (apply Nat.mod_upper_bound; done).
    f_equal. rewrite Nat.Div0.add_mod_idemp_l. f_equal. lia.
Qed.

Lemma xor_into_nil_r d : xor_into d [] = d.
Proof. by destruct d. Qed.

Lemma xor_into_length d : forall p, length (xor_into d p) = length d.
Proof.
  induction d as [|x d IH]; intros [|b p]; simpl; try done.
  by rewrite IH.
Qed.

Lemma xor_into_take d : forall p,
  xor_into d p = xor_into d (take (length d) p).
Proof.
  induction d as [|x d IH]; intros [|b p]; simpl; try done.
  by rewrite <- IH.
Qed.

(** A straight run of [XORBytes] over the tail of the buffer that does not
    cross its end is the byte-wise run. *)
Lemma xor_into_circ p : forall d pos,
  length d = dataSize ->
  (pos + length p <= dataSize)%nat ->
  take pos d ++ xor_into (drop pos d) p = xor_circ d pos p.
Proof.
  induction p as [|b p IH]; intros d pos Hd Hp; simpl.
  - by rewrite xor_into_nil_r, take_drop.
  - simpl in Hp.
    assert (Hlt : (pos < length d)%nat) by lia.
    destruct (lookup_lt_is_Some_2 d pos Hlt) as [x Hx].
    rewrite (drop_S _ _ _ Hx). simpl.
    rewrite (nth_lookup_Some _ _ _ _ Hx).
    set (v := Z.lxor b x).
    destruct (decide (S pos = dataSize)) as [Heq|Hne].
    + assert (p = []) as -> by (destruct p; simpl in *; [done|lia]).
      simpl. rewrite xor_into_nil_r.
      by rewrite insert_take_drop by done.
    + rewrite Nat.mod_small by lia.
      rewrite <- IH by (rewrite ?length_insert; lia).
      rewrite drop_insert_lt by lia.
      rewrite (take_S_r _ _ v) by (by apply list_lookup_insert_eq).
      rewrite take_insert_ge by lia.
      by rewrite <- app_assoc.
Qed.

Lemma xor_into_block d p :
  length d = dataSize -> (length p <= dataSize)%nat ->
  xor_into d p = xor_circ d 0 p.
Proof.
  intros Hd Hp. rewrite <- xor_into_circ by (simpl; lia). by simpl.
Qed.

(** The block loop stops, with fewer than [dataSize] bytes left, after
    having XORed a whole number of blocks from position 0. *)
Lemma write_blocks_spec fuel : forall p d i,
  length d = dataSize -> (i <= length p)%nat ->
  (length p - i < fuel * dataSize)%nat ->
  exists i',
    write_blocks fuel p d i = (xor_circ d 0 (take (i' - i) (drop i p)), i')
    /\ (i <= i' <= length p)%nat
    /\ (length p - i' < dataSize)%nat
    /\ ((i' - i) mod dataSize = 0)%nat.
Proof.
  pose proof dataSize_pos as HD.
  induction fuel as [|fuel IH]; intros p d i Hd Hi Hfuel; [lia|].
  simpl. destruct (dataSize <=? length p - i)%nat eqn:Hle.
  - apply Nat.leb_le in Hle. unfold xorBytes.
    rewrite Hd, length_drop, Nat.min_l by lia.
    rewrite xor_into_take, Hd.
    rewrite xor_into_block by (rewrite ?length_take, ?length_drop; lia).
    set (d' := xor_circ d 0 (take dataSize (drop i p))).
    destruct (IH p d' (i + dataSize)%nat) as (i' & Heq & Hr & Hlt & Hmod).
    { unfold d'. by rewrite xor_circ_length. }
    { lia. }
    { lia. }
    exists i'. rewrite Heq. split; [|split; [lia|split; [lia|]]].
    + f_equal. unfold d'.
      replace (i' - i)%nat with (dataSize + (i' - (i + dataSize)))%nat by lia.
      rewrite <- take_take_drop, drop_drop.
      rewrite xor_circ_app by done.
      rewrite length_take, length_drop, Nat.min_l by lia.
      by rewrite Nat.add_0_l, Nat.Div0.mod_same.
    + replace (i' - i)%nat with ((i' - (i + dataSize)) + 1 * dataSize)%nat
        by lia.
      by rewrite Nat.Div0.mod_add.
  - apply Nat.leb_gt in Hle. exists i.
    rewrite Nat.sub_diag. simpl. rewrite Nat.Div0.mod_0_l.
    repeat split; lia.
Qed.

(** [Write] XORs the bytes of [p] into the circular buffer from position
    [size mod dataSize] on and adds [len(p)] to the 64-bit counter. *)
Lemma Write_spec p d sz :
  length d = dataSize -> 0 <= sz ->
  Write p (mk d sz)
  = (length p,
     mk (xor_circ d (Z.to_nat (sz mod Z.of_nat dataSize)) p)
        ((sz + Z.of_nat (length p)) mod 2 ^ 64)).
Proof.
  intros Hd Hsz. pose proof dataSize_pos as HD.
  unfold Write, mbind, M_bind, mret, M_ret, get_data, get_size,
    set_data, set_size. simpl.
  set (lr := Z.to_nat (sz mod Z.of_nat dataSize)).
  assert (Hlr : (lr < dataSize)%nat).
  { unfold lr. pose proof (Z.mod_pos_bound sz (Z.of_nat dataSize)). lia. }
  assert (Hfin : forall d1 i, length d1 = dataSize -> (i <= length p)%nat ->
     (if (i =? length p)%nat then d1
      else let (d', i') := write_blocks (length p) p d1 i in
           fst (xorBytes d' (drop i' p)))
     = xor_circ d1 0 (drop i p)).
  { intros d1 i Hd1 Hi. destruct (i =? length p)%nat eqn:Heq.
    - apply Nat.eqb_eq in Heq. subst i. by rewrite drop_all.
    - apply Nat.eqb_neq in Heq.
      destruct (write_blocks_spec (length p) p d1 i Hd1 Hi)
        as (i' & Hwb & Hr & Hlt & Hmod).
      { pose proof dataSize_eq. lia. }
      rewrite Hwb. unfold xorBytes. simpl.
      rewrite xor_into_block
        by (rewrite ?xor_circ_length, ?length_drop; lia).
      rewrite <- (drop_take_drop p i i') at 2 by lia.
      rewrite xor_circ_app by done.
      rewrite length_drop, length_take, Nat.min_l by lia.
      rewrite Nat.add_0_l, Hmod.
      by rewrite take_drop_commute, Nat.add_comm, Nat.sub_add by lia. }
  destruct (lr =? 0)%nat eqn:Hz.
  - apply Nat.eqb_eq in Hz. rewrite Hz.
    rewrite Hfin by (done || lia). by rewrite drop_0.
  - apply Nat.eqb_neq in Hz. unfold xorBytes.
    rewrite length_drop, Hd.
    set (n := Nat.min (dataSize - lr) (length p)).
    rewrite Hfin; cycle 1.
    { rewrite length_app, length_take, xor_into_length, length_drop. lia. }
    { unfold n. lia. }
    f_equal. f_equal.
    rewrite xor_into_take, length_drop, Hd.
    replace (take (dataSize - lr) p) with (take n p); cycle 1.
    { unfold n. destruct (Nat.min_spec (dataSize - lr) (length p))
        as [[? ->]|[? ->]]; [done|]. by rewrite !take_ge by lia. }
    rewrite xor_into_circ by (rewrite ?length_take; unfold n; lia).
    rewrite <- (take_drop n p) at 3.
    rewrite xor_circ_app by done.
    rewrite length_take.
    destruct (decide (n = length p)) as [Hn|Hn].
    + by rewrite Hn, drop_all.
    + replace (Nat.min n (length p)) with n by lia.
      replace (lr + n)%nat with dataSize by (unfold n in *; lia).
      by rewrite Nat.Div0.mod_same.
Qed.

Lemma New_well_formed : well_formed New.
Proof. split; [apply length_replicate|simpl; lia]. Qed.

Lemma absorb_spec c q :
  well_formed q ->
  absorb c q
  = mk (xor_circ (data q) (Z.to_nat (size q mod Z.of_nat dataSize)) c)
       ((size q + Z.of_nat (length c)) mod 2 ^ 64).
Proof.
  intros [Hd Hs]. unfold absorb. destruct q as [d sz]; simpl in *.
  rewrite Write_spec by (done || lia). done.
Qed.

Lemma absorb_well_formed c q : well_formed q -> well_formed (absorb c q).
Proof.
  intros Hq. rewrite absorb_spec by done. destruct Hq as [Hd Hs].
  split; simpl.
  - by rewrite xor_circ_length.
  - apply Z.mod_pos_bound. lia.
Qed.

Lemma absorb_nil q : well_formed q -> absorb [] q = q.
Proof.
  intros Hq. rewrite absorb_spec by done. destruct Hq as [Hd Hs].
  destruct q as [d sz]; simpl in *.
  by rewrite Z.add_0_r, Z.mod_small by lia.
Qed.

(** Two calls in a row are one call on the joined input, as long as the
    counter does not wrap around in between. *)
Lemma absorb_app a b q :
  well_formed q ->
  size q + Z.of_nat (length a) < 2 ^ 64 ->
  absorb b (absorb a q) = absorb (a ++ b) q.
Proof.
  intros Hq Hlt. pose proof dataSize_eq as HD.
  rewrite (absorb_spec b) by (by apply absorb_well_formed).
  rewrite !absorb_spec by done. destruct Hq as [Hd Hs].
  destruct q as [d sz]; simpl in *.
  assert (Hlr : (Z.to_nat (sz mod Z.of_nat dataSize) < dataSize)%nat).
  { pose proof (Z.mod_pos_bound sz (Z.of_nat dataSize)). lia. }
  rewrite xor_circ_app by done.
  rewrite (Z.mod_small (sz + _)) by lia.
  f_equal.
  - f_equal.
    rewrite <- (Nat2Z.id ((_ + _) mod _)%nat).
    f_equal. rewrite Nat2Z.inj_mod, Nat2Z.inj_add, Z2Nat.id
      by (apply Z.mod_pos_bound; lia).
    by rewrite Zplus_mod_idemp_l.
  - rewrite length_app, Nat2Z.inj_add. f_equal. lia.
Qed.

Lemma absorb_all_concat chunks : forall q,
  well_formed q ->
  size q + Z.of_nat (length (concat chunks)) < 2 ^ 64 ->
  absorb_all chunks q = absorb (concat chunks) q.
Proof.
  induction chunks as [|c chunks IH]; intros q Hq Hlt; simpl.
  - by rewrite absorb_nil.
  - simpl in Hlt. rewrite length_app, Nat2Z.inj_add in Hlt.
    rewrite IH.
    + apply absorb_app; [done|lia].
    + by apply absorb_well_formed.
    + rewrite absorb_spec by done. simpl.
      destruct Hq as [_ Hs]. rewrite Z.mod_small by lia. lia.
Qed.

Lemma quickxor_chunk_absorb (chunks : list (list Z)) :
  Z.of_nat (length (concat chunks)) <= maxInt ->
  absorb_all chunks New = absorb (concat chunks) New
  /\ well_formed (absorb (concat chunks) New).
Proof.
  intros Hlen. unfold maxInt in Hlen. split.
  - apply absorb_all_concat; [apply New_well_formed|]. simpl. lia.
  - apply absorb_well_formed, New_well_formed.
Qed.

(** For QuickXor, absorbing the chunks [c1 .. cn] of an input one
    after the other leaves the accumulator, and hence the digest, exactly
    as absorbing the whole input in one call does, for every input that
    fits a Go slice; and absorbing a zero-length chunk next changes
    neither the buffer nor the counter. *)
Theorem quickxor_chunk_independent (chunks : list (list Z)) :
  Z.of_nat (length (concat chunks)) <= maxInt ->
  absorb_all chunks New = absorb (concat chunks) New
  /\ finalize (absorb_all chunks New) = finalize (absorb (concat chunks) New)
  /\ Write [] (absorb_all chunks New) = (0%nat, absorb_all chunks New).
Proof.
  intros Hlen. destruct (quickxor_chunk_absorb chunks Hlen) as [Heq Hwf].
  split; [done|]. split; [by rewrite Heq|].
  rewrite Heq.
  pose proof (absorb_nil _ Hwf) as Hnil.
  unfold absorb in Hnil at 1.
  destruct (absorb (concat chunks) New) as [d sz] eqn:E.
  destruct Hwf as [Hd Hs]; simpl in *.
  rewrite Write_spec in * by (done || lia). simpl in *. by rewrite Hnil.
Qed.

(** "hello world" absorbed as "hello" then " world". *)
Lemma quickxor_chunk_independent_witness :
  Z.of_nat (length (concat [bytes_of_string "hello";
                            bytes_of_string " world"])) <= maxInt
  /\ finalize (absorb_all [bytes_of_string "hello";
                           bytes_of_string " world"] New)
     = finalize (absorb (bytes_of_string "hello world") New).
Proof.
  split; [vm_compute; discriminate|].
  apply (quickxor_chunk_independent
           [bytes_of_string "hello"; bytes_of_string " world"]).
  vm_compute; discriminate.
Defined.

(** [Sum] of QuickXor neither changes the accumulator nor depends on
    having been called before: for every accumulator state [q], the state
    after [Sum] is [q], a second [Sum] returns the same bytes, and a [Write]
    after [Sum] behaves as a [Write] on [q]. *)
Theorem quickxor_Sum_idempotent (q : quickXorHash) (b p : list Z) :
  snd (Sum b q) = q
  /\ fst (Sum b (snd (Sum b q))) = fst (Sum b q)
  /\ Write p (snd (Sum b q)) = Write p q.
Proof.
  assert (H : snd (Sum b q) = q) by (by destruct q).
  by rewrite !H.
Qed.

#[local] Transparent dataSize.

End QuickXorProofs.

(** ** The filter predicate *)

Section FilterProofs.

Import scanner.

(** With an allow-list of extensions set, [matchExtension] never looks at
    the deny-list. *)
Lemma matchExtension_allow_wins (f : FilterOptions) (path : string) :
  IncludeExts f <> [] ->
  ext_listed (IncludeExts f) (strings_ToLower (filepath_Ext path)) = true ->
  matchExtension f path = true.
Proof.
  intros Hne Hin. unfold matchExtension.
  destruct (IncludeExts f) as [|e exts]; [done|].
  simpl length. simpl Nat.ltb. cbv iota. by rewrite Hin.
Qed.

(** With a deny-list of globs set, [matchGlob] rejects every path one of
    its patterns matches, whatever the allow-list says. *)
Lemma matchGlob_deny_wins (f : FilterOptions) (path : string) :
  ExcludeGlobs f <> [] ->
  glob_listed (ExcludeGlobs f) (filepath_ToSlash path) (filepath_Base path)
    = true ->
  matchGlob f path = false.
Proof.
  intros Hne Hin. unfold matchGlob. rewrite Hin.
  destruct (ExcludeGlobs f) as [|e exts]; [done|].
  by destruct (_ && negb _).
Qed.

(** The options [-i "*.txt" -e "test_*"]. *)
Definition txt_but_not_tests : FilterOptions :=
  mkFilter 0 0 [] [] ["*.txt"%string] ["test_*"%string].

(** C4: the path [test_a.txt] matches the include glob [*.txt] and the
    exclude glob [test_*] of a filter without size bounds or extension
    lists, and [Match] rejects it: for globs the deny-list is consulted
    even when the allow-list matched, unlike for extensions, where a
    path on both lists passes. *)
Theorem Match_glob_allow_and_deny :
  glob_listed (IncludeGlobs txt_but_not_tests)
     (filepath_ToSlash "test_a.txt") (filepath_Base "test_a.txt") = true
  /\ glob_listed (ExcludeGlobs txt_but_not_tests)
     (filepath_ToSlash "test_a.txt") (filepath_Base "test_a.txt") = true
  /\ Match txt_but_not_tests "test_a.txt" 100 = false
  /\ Match (mkFilter 0 0 [".txt"%string] [".txt"%string] [] [])
           "test_a.txt" 100 = true.
Proof. repeat split. Qed.

(** C8: with no extension and no glob list set, [Match] is false exactly
    when the size is above a positive [MaxSize] or below a positive
    [MinSize]. *)
Theorem Match_size_bounds (f : FilterOptions) (path : string) (size : Z) :
  IncludeExts f = [] -> ExcludeExts f = [] ->
  IncludeGlobs f = [] -> ExcludeGlobs f = [] ->
  Match f path size = false
  <-> (0 < MaxSize f /\ MaxSize f < size)
      \/ (0 < MinSize f /\ size < MinSize f).
Proof.
  intros Hie Hee Hig Heg.
  unfold Match, matchExtension, matchGlob.
  rewrite Hie, Hee, Hig, Heg. simpl.
  destruct (Z.ltb_spec 0 (MaxSize f)) as [H1|H1],
    (Z.ltb_spec (MaxSize f) size) as [H2|H2],
    (Z.ltb_spec 0 (MinSize f)) as [H3|H3],
    (Z.ltb_spec size (MinSize f)) as [H4|H4];
    simpl; split; intros H; try done; try lia; auto.
Qed.

Lemma Match_size_bounds_witness :
  Match (mkFilter 1000 100 [] [] [] []) "test.txt" 50 = false
  <-> (0 < 1000 /\ 1000 < 50) \/ (0 < 100 /\ 50 < 100).
Proof.
  exact (Match_size_bounds (mkFilter 1000 100 [] [] [] []) "test.txt" 50
           eq_refl eq_refl eq_refl eq_refl).
Defined.

End FilterProofs.

(** ** The multi-hash fan-out *)

Section FanOutProofs.

Import quickxorhash hasher.

(** The multi-writer hands every accumulator the writes it would get
    alone. *)
Lemma io_Copy_each (r : Reader) (writers : list Hash) :
  fst (io_Copy writers r) = map (fun h => copy_alone h r) writers.
Proof.
  unfold io_Copy, copy_alone. simpl.
  generalize dependent writers.
  induction (chunks r) as [|c cs IH]; intros writers; simpl.
  - by rewrite map_id.
  - rewrite IH. destruct (length c =? 0)%nat; [done|].
    unfold MultiWriter_Write. by rewrite map_map.
Qed.

Lemma collect_insert (results : gmap string string) (h : Hasher)
    (hash : Hash) :
  collect results (h, hash)
  = <[Name h := encode h (Hash_Sum [] hash)]> results.
Proof. unfold collect, encode. by destruct (IsBase64 h). Qed.

Lemma zip_map_r {A B} (f : A -> B) (l : list A) :
  zip l (map f l) = map (fun a => (a, f a)) l.
Proof. induction l as [|a l IH]; simpl; [done|by rewrite IH]. Qed.

Lemma collect_other (f : Hash -> Hash) (name : string) (hs : list Hasher) :
  forall results : gmap string string,
  name ∉ map Name hs ->
  fold_left collect (map (fun h => (h, f (New h))) hs) results !! name
  = results !! name.
Proof.
  induction hs as [|h hs IH]; intros results Hnotin; [done|].
  cbn [map fold_left] in *.
  apply not_elem_of_cons in Hnotin as [Hne Hnotin].
  rewrite IH by done. rewrite collect_insert.
  by rewrite lookup_insert_ne.
Qed.

Lemma collect_lookup (f : Hash -> Hash) (A : Hasher) (hs : list Hasher) :
  forall results : gmap string string,
  NoDup (map Name hs) -> A ∈ hs ->
  fold_left collect (map (fun h => (h, f (New h))) hs) results !! Name A
  = Some (encode A (Hash_Sum [] (f (New A)))).
Proof.
  induction hs as [|h hs IH]; intros results Hnd Hin.
  - by apply elem_of_nil in Hin.
  - cbn [map fold_left] in *. apply NoDup_cons in Hnd as [Hnotin Hnd].
    apply elem_of_cons in Hin as [->|Hin].
    + rewrite collect_other by done.
      rewrite collect_insert. by rewrite lookup_insert_eq.
    + by apply IH.
Qed.

(** C2: for every byte source and every list of hashers with distinct
    names that contains [A], the fan-out answers as [A] run alone over
    that source does: when the source ends in a read error both fail with
    it, and otherwise the map the fan-out returns holds under [A]'s name
    exactly the encoded digest [A] alone produces. *)
Theorem HashReader_runAlone (r : Reader) (hs : list Hasher) (A : Hasher) :
  NoDup (map Name hs) -> A ∈ hs ->
  match HashReader r hs, runAlone A r with
  | Ok results, Ok digest => results !! Name A = Some digest
  | Err e1, Err e2 => e1 = e2
  | _, _ => False
  end.
Proof.
  intros Hnd Hin. unfold HashReader, runAlone.
  destruct hs as [|h hs']; [by apply elem_of_nil in Hin|].
  set (hs := h :: hs') in *.
  replace (length hs =? 0)%nat with false by done.
  pose proof (io_Copy_each r (map New hs)) as Hcopy.
  destruct (io_Copy (map New hs) r) as [hashes err] eqn:E.
  assert (err = read_error r) as -> by (unfold io_Copy in E; congruence).
  cbn [fst] in Hcopy. subst hashes.
  destruct (read_error r) as [e|]; [done|].
  rewrite map_map, zip_map_r.
  by rewrite (collect_lookup (fun h => copy_alone h r)).
Qed.

(** "hello world", read as "hello" and " world", hashed by CRC-32 and
    QuickXor at once: the fan-out holds for QuickXor what QuickXor alone
    gives, the reference digest of "hello world". *)
Lemma HashReader_runAlone_witness :
  NoDup (map Name [crc32Hasher; quickxorHasher])
  /\ quickxorHasher ∈ [crc32Hasher; quickxorHasher]
  /\ runAlone quickxorHasher
       (mkReader [bytes_of_string "hello"; bytes_of_string " world"] None)
     = Ok "aCgDG9jwBhDc4Q1yawMZAAAAAAA="%string
  /\ match HashReader (mkReader [bytes_of_string "hello";
                                 bytes_of_string " world"] None)
                      [crc32Hasher; quickxorHasher],
           runAlone quickxorHasher
                    (mkReader [bytes_of_string "hello";
                               bytes_of_string " world"] None) with
     | Ok results, Ok digest => results !! Name quickxorHasher = Some digest
     | Err e1, Err e2 => e1 = e2
     | _, _ => False
     end.
Proof.
  assert (Hnd : NoDup (map Name [crc32Hasher; quickxorHasher])).
  { apply NoDup_cons. split; [|apply NoDup_singleton].
    intros H. apply list_elem_of_singleton in H. discriminate H. }
  assert (Hin : quickxorHasher ∈ [crc32Hasher; quickxorHasher]).
  { apply elem_of_cons. right. apply list_elem_of_here. }
  split; [exact Hnd|]. split; [exact Hin|].
  split; [vm_compute; reflexivity|].
  exact (HashReader_runAlone
           (mkReader [bytes_of_string "hello"; bytes_of_string " world"] None)
           [crc32Hasher; quickxorHasher] quickxorHasher Hnd Hin).
Defined.

Lemma copy_alone_quickxor (r : Reader) : forall q,
  well_formed q ->
  copy_alone (quickXorHash_Hash q) r
  = quickXorHash_Hash (absorb_all (chunks r) q).
Proof.
  unfold copy_alone, absorb_all.
  induction (chunks r) as [|c cs IH]; intros q Hq; [done|].
  cbn [fold_left].
  destruct (Nat.eqb_spec (length c) 0) as [Hz|Hz].
  - apply nil_length_inv in Hz. subst c.
    rewrite absorb_nil by done. by apply IH.
  - rewrite <- IH by (by apply absorb_well_formed). done.
Qed.

(** For QuickXor, running alone over a source is hashing the bytes of the
    source in one piece. *)
Lemma runAlone_quickxor (r : Reader) :
  read_error r = None ->
  Z.of_nat (length (concat (chunks r))) <= maxInt ->
  runAlone quickxorHasher r
  = Ok (base64_EncodeToString (quickxor_digest (concat (chunks r)))).
Proof.
  intros Herr Hlen. unfold runAlone. rewrite Herr. f_equal.
  change (hasher.New quickxorHasher)
    with (quickXorHash_Hash quickxorhash.New).
  rewrite copy_alone_quickxor by apply New_well_formed.
  destruct (quickxor_chunk_absorb (chunks r) Hlen) as [-> _].
  done.
Qed.

(** CRC-32 too is indifferent to how its input is cut. *)
Lemma crc32_Write_app (a b : list Z) (crc : Z) :
  crc32.Write b (crc32.Write a crc) = crc32.Write (a ++ b) crc.
Proof.
  unfold crc32.Write, crc32.simpleUpdate, crc32.not32.
  rewrite fold_left_app. f_equal. f_equal.
  by rewrite Z.lxor_assoc, Z.lxor_nilpotent, Z.lxor_0_r.
Qed.

End FanOutProofs.

(** ** The registry and [Parse] *)

Section RegistryProofs.

Import hasher.

Variables md5_New sha1_New sha256_New sha512_New blake3_New : Hash.
Variable xxh3_Hasher : Type.
Variable xxh3_New : xxh3_Hasher.
Variable xxh3_Write : list Z -> xxh3_Hasher -> xxh3_Hasher.
Variable xxh3_Sum64 : xxh3_Hasher -> Z.
Variable xxh3_Sum128 : xxh3_Hasher -> Z * Z.

Abbreviation Get' :=
  (Get md5_New sha1_New sha256_New sha512_New blake3_New
       xxh3_Hasher xxh3_New xxh3_Write xxh3_Sum64 xxh3_Sum128).
Abbreviation parse_loop' :=
  (parse_loop md5_New sha1_New sha256_New sha512_New blake3_New
       xxh3_Hasher xxh3_New xxh3_Write xxh3_Sum64 xxh3_Sum128).
Abbreviation Parse' :=
  (Parse md5_New sha1_New sha256_New sha512_New blake3_New
       xxh3_Hasher xxh3_New xxh3_Write xxh3_Sum64 xxh3_Sum128).





(** Every hasher is registered under its own name. *)
Lemma registry_key_name (key : string) (h : Hasher) :
  registry md5_New sha1_New sha256_New sha512_New blake3_New
           xxh3_Hasher xxh3_New xxh3_Write xxh3_Sum64 xxh3_Sum128 !! key
    = Some h ->
  Name h = key.
Proof.
  unfold registry, Register.
  repeat (rewrite lookup_insert;
          destruct (decide _) as [<-|?]; [by intros [= <-]|]).
  by rewrite lookup_empty.
Qed.

Lemma lower_ascii_idem (c : ascii) :
  lower_ascii (lower_ascii c) = lower_ascii c.
Proof. destruct c as [[] [] [] [] [] [] [] []]; reflexivity. Qed.

Lemma ToLower_idem (s : string) :
  strings_ToLower (strings_ToLower s) = strings_ToLower s.
Proof.
  induction s as [|c s IH]; simpl; [done|].
  by rewrite lower_ascii_idem, IH.
Qed.

Lemma trim_left_lower (s : string) :
  strings_ToLower s = s -> strings_ToLower (trim_left s) = trim_left s.
Proof.
  induction s as [|c s IH]; simpl; [done|]. intros [= Hc Hs].
  destruct (is_space c); [by apply IH|]. simpl. by rewrite Hc, Hs.
Qed.

Lemma trim_right_lower (s : string) :
  strings_ToLower s = s -> strings_ToLower (trim_right s) = trim_right s.
Proof.
  induction s as [|c s IH]; simpl; [done|]. intros [= Hc Hs].
  specialize (IH Hs). destruct (trim_right s) as [|c' t].
  - destruct (is_space c); simpl; [done|by rewrite Hc].
  - simpl in *. by rewrite Hc, IH.
Qed.

Lemma entry_name_lower (part : string) :
  strings_ToLower (entry_name part) = entry_name part.
Proof.
  unfold entry_name, strings_TrimSpace.
  apply trim_right_lower, trim_left_lower, ToLower_idem.
Qed.

(** The names of the hashers the loop has selected are distinct, all of
    them being names it has seen. *)
Lemma parse_loop_distinct (parts : list string) :
  forall (seen : gmap string bool) hashers hashers',
  Forall (fun h => default false (seen !! Name h) = true) hashers ->
  NoDup (map Name hashers) ->
  parse_loop' parts seen hashers = inr hashers' ->
  NoDup (map Name hashers').
Proof.
  induction parts as [|part parts IH]; intros seen hashers hashers' Hseen Hnd.
  { by intros [= <-]. }
  cbn [parse_loop]. fold (entry_name part).
  destruct (String.eqb (entry_name part) ""); [by apply IH|].
  destruct (default false (seen !! entry_name part)) eqn:Hs; [by apply IH|].
  destruct (Get' (entry_name part)) as [h|] eqn:Hget; [|done].
  unfold Get in Hget. rewrite entry_name_lower in Hget.
  apply registry_key_name in Hget.
  apply IH.
  - apply Forall_app. split.
    + eapply Forall_impl; [exact Hseen|]. intros h' Hh'. simpl in Hh'.
      destruct (decide (entry_name part = Name h')) as [<-|Hne].
      * by rewrite lookup_insert_eq.
      * by rewrite lookup_insert_ne.
    + constructor; [|done]. by rewrite Hget, lookup_insert_eq.
  - rewrite map_app. simpl. apply NoDup_app. split; [done|]. split.
    + intros name Hin Hin'. apply list_elem_of_singleton in Hin'. subst name.
      apply list_elem_of_fmap in Hin as (h' & Hname & Hin).
      rewrite Forall_forall in Hseen. apply Hseen in Hin.
      rewrite <- Hname, Hget in Hin. congruence.
    + apply NoDup_singleton.
Qed.

(** What [Parse] selects has distinct names, as the fan-out needs. *)
Lemma Parse_names_distinct (names : string) (hashers : list Hasher) :
  Parse' names = inr hashers -> NoDup (map Name hashers).
Proof.
  unfold Parse. destruct (String.eqb names ""); [done|].
  destruct (parse_loop' (strings_Split names ","%char) ∅ [])
    as [e|hs] eqn:Hloop; [done|].
  destruct (length hs =? 0)%nat; [done|]. intros [= <-].
  eapply parse_loop_distinct; [| |exact Hloop]; constructor.
Qed.


End RegistryProofs.

(** ** The scanner *)

Section PoolProofs.

Import scanner.

Variable s : Scanner.
Variable fs : FS.
Variable process : Scanner -> string -> IO (option Result).
Variable leave : Scanner -> Result -> Exit.

Abbreviation step' := (step s fs process leave).
Abbreviation steps' := (steps s fs process leave).
Abbreviation stream' := (stream s fs process).
Abbreviation outcome' := (outcome s fs process).
Abbreviation pending' := (pending s fs process).

Lemma release_eq (e : Exit) (before after : list Worker) :
  release e before after = before ++ after.
Proof. by destruct e. Qed.

Lemma flat_map_app' {A B} (f : A -> list B) (l1 l2 : list A) :
  flat_map f (l1 ++ l2) = flat_map f l1 ++ flat_map f l2.
Proof. induction l1 as [|a l1 IH]; simpl; [done|]. by rewrite IH, app_assoc. Qed.

(** No step loses or invents a [Result]. *)
Lemma step_stream (p p' : Pool) :
  step' p p' -> Permutation (stream' p) (stream' p').
Proof.
  intros Hstep. destruct Hstep; unfold stream; simpl;
    rewrite ?release_eq, ?flat_map_app'; simpl.
  - unfold outcome at 2. rewrite app_nil_r.
    by rewrite <- !app_assoc.
  - unfold outcome. rewrite H. done.
  - unfold outcome. rewrite H. done.
  - rewrite <- !app_assoc. apply Permutation_app_head.
    apply Permutation_app_head. simpl.
    symmetry. apply Permutation_middle.
  - by rewrite <- !app_assoc.
  - done.
Qed.

(** With one slot, no step even reorders the stream. *)
Lemma step_stream_serial (p p' : Pool) :
  Workers s = 1%nat -> (length (running p) <= 1)%nat ->
  step' p p' ->
  stream' p = stream' p' /\ (length (running p') <= 1)%nat.
Proof.
  intros HW Hlen Hstep. destruct Hstep; unfold stream; simpl in *;
    rewrite ?release_eq, ?flat_map_app', ?length_app in *; simpl in *.
  - destruct ws; simpl in *; [|lia]. split; [|lia].
    unfold outcome at 1. by rewrite app_nil_r.
  - split; [|lia]. unfold outcome. by rewrite H.
  - split; [|lia]. unfold outcome. by rewrite H.
  - destruct before, after; simpl in *; try lia.
    split; [|lia]. by rewrite <- !app_assoc.
  - split; [|lia]. by rewrite <- !app_assoc.
  - done.
Qed.

Lemma step_dispatched (p p' : Pool) :
  step' p p' -> dispatched p ++ todo p = dispatched p' ++ todo p'.
Proof. intros Hstep. destruct Hstep; simpl; by rewrite <- ?app_assoc. Qed.

Lemma step_closed (p p' : Pool) :
  step' p p' ->
  (closed p = true -> todo p = [] /\ running p = []) ->
  closed p' = true -> todo p' = [] /\ running p' = [].
Proof. intros Hstep Hinv. destruct Hstep; simpl in *; done. Qed.

(** What holds of every state a call can reach. *)
Lemma steps_invariant (paths : list string) (p : Pool) :
  steps' (start paths) p ->
  Permutation (stream' p) (flat_map outcome' paths)
  /\ dispatched p ++ todo p = paths
  /\ (closed p = true -> todo p = [] /\ running p = []).
Proof.
  intros Hsteps. unfold steps in Hsteps. revert p Hsteps.
  apply rtc_ind_r; [|intros p p' Hsteps Hstep IH].
  - unfold stream. simpl. done.
  - destruct IH as (Hperm & Hdisp & Hclosed). split; [|split].
    + by rewrite <- (step_stream _ _ Hstep).
    + by rewrite <- (step_dispatched _ _ Hstep).
    + by apply (step_closed _ _ Hstep).
Qed.

Lemma steps_invariant_serial (paths : list string) (p : Pool) :
  Workers s = 1%nat ->
  steps' (start paths) p ->
  stream' p = flat_map outcome' paths /\ (length (running p) <= 1)%nat.
Proof.
  intros HW Hsteps. unfold steps in Hsteps. revert p Hsteps.
  apply rtc_ind_r; [|intros p p' Hsteps Hstep IH].
  - unfold stream. simpl. split; [done|lia].
  - destruct IH as [Hstream Hlen].
    destruct (step_stream_serial _ _ HW Hlen Hstep) as [Heq Hlen'].
    split; [congruence|done].
Qed.

(** Once the call is over, the consumer holds whatever the per-path
    function produced for the paths of the list, all of them. *)
Lemma finished_stream (paths : list string) (p : Pool) :
  steps' (start paths) p -> finished p ->
  dispatched p = paths /\ stream' p = received p.
Proof.
  intros Hsteps [Hclosed Hempty].
  destruct (steps_invariant paths p Hsteps) as (_ & Hdisp & Hinv).
  destruct (Hinv Hclosed) as [Htodo Hrun].
  unfold stream. rewrite Htodo, Hrun, Hempty in *. simpl.
  rewrite !app_nil_r in *. done.
Qed.

(** With at least one slot a call can always run to its end: one path
    after the other is dispatched, processed and its [Result], if any,
    sent and received. *)
Lemma serial_steps (paths : list string) :
  (0 < Workers s)%nat ->
  forall rcv d t, exists t',
    steps' (mkPool paths [] [] rcv false d t)
           (mkPool [] [] [] (rcv ++ flat_map outcome' paths) false
                   (d ++ paths) t').
Proof.
  intros HW. unfold steps.
  induction paths as [|path paths IH]; intros rcv d t.
  { exists t. simpl. rewrite !app_nil_r. apply rtc_refl. }
  assert (Hd : step' (mkPool (path :: paths) [] [] rcv false d t)
                     (mkPool paths [Processing path] [] rcv false
                             (d ++ [path]) t)).
  { apply (step_dispatch s fs process leave path paths [] [] rcv d t).
    simpl. lia. }
  simpl. unfold outcome at 1.
  destruct (process s path fs) as [[r|] ops] eqn:Hp; simpl.
  - destruct (IH (rcv ++ [r]) (d ++ [path]) (t ++ ops)) as [t' Hrest].
    exists t'. rewrite <- !app_assoc in Hrest. simpl in Hrest.
    eapply rtc_l; [exact Hd|].
    eapply rtc_l.
    { apply (step_process_result s fs process leave path r ops paths
               [] [] [] rcv _ t Hp). }
    eapply rtc_l.
    { pose proof (step_send s fs process leave r paths [] [] [] rcv
                    (d ++ [path]) (t ++ ops)) as Hsend.
      rewrite release_eq in Hsend. apply Hsend. simpl. lia. }
    eapply rtc_l; [apply step_receive|]. exact Hrest.
  - destruct (IH rcv (d ++ [path]) (t ++ ops)) as [t' Hrest].
    exists t'. rewrite <- !app_assoc in Hrest. simpl in Hrest.
    eapply rtc_l; [exact Hd|].
    eapply rtc_l.
    { apply (step_process_nil s fs process leave path ops paths
               [] [] [] rcv _ t Hp). }
    exact Hrest.
Qed.

Lemma run_exists (paths : list string) :
  (0 < Workers s)%nat ->
  exists final, steps' (start paths) final /\ finished final.
Proof.
  intros HW. destruct (serial_steps paths HW [] [] []) as [t' Hsteps].
  exists (mkPool [] [] [] ([] ++ flat_map outcome' paths) true
                 ([] ++ paths) t').
  split; [|done]. unfold steps in *.
  eapply rtc_r; [exact Hsteps|]. apply step_close.
Qed.

End PoolProofs.

Section ScannerProofs.

Import hasher scanner examples.

Lemma hash_and_report_hashed (s : Scanner) (fs : FS) (path : string)
    (info : FileInfo) :
  hash_and_report s path info fs = hashed s fs path info.
Proof.
  unfold hash_and_report, hashed, output_path, HashFile, mbind, IO_bind,
    mret, IO_ret, os_Open, HashReader_file, filepath_Abs.
  destruct (fs_Open fs path) as [f|err]; destruct (AbsolutePath s);
    simpl; rewrite ?app_nil_r; done.
Qed.

(** [ScanFile] and [processFile] by cases on the answer of [os.Stat]. *)
Lemma ScanFile_cases (s : Scanner) (fs : FS) (path : string) :
  ScanFile s path fs
  = match fs_Stat fs path with
    | inr err => (Some (mkResult path 0 None (Some err)), [OpStat path])
    | inl info =>
        if IsDir info
        then (Some (mkResult path 0 None (Some ErrInvalid)), [OpStat path])
        else if filtered_out s path (info_Size info)
        then (None, [OpStat path])
        else (fst (hashed s fs path info),
              OpStat path :: snd (hashed s fs path info))
    end.
Proof.
  unfold ScanFile, mbind, IO_bind, os_Stat.
  destruct (fs_Stat fs path) as [info|err]; [|done].
  destruct (IsDir info), (filtered_out s path (info_Size info));
    rewrite ?hash_and_report_hashed;
    by destruct (hashed s fs path info) as [r ops].
Qed.

Lemma processFile_cases (s : Scanner) (fs : FS) (path : string) :
  processFile s path fs
  = match fs_Stat fs path with
    | inr err => (Some (mkResult path 0 None (Some err)), [OpStat path])
    | inl info => (fst (hashed s fs path info),
                   OpStat path :: snd (hashed s fs path info))
    end.
Proof.
  unfold processFile, mbind, IO_bind, os_Stat.
  destruct (fs_Stat fs path) as [info|err]; [|done].
  rewrite hash_and_report_hashed.
  by destruct (hashed s fs path info) as [r ops].
Qed.

(** C6: what the two per-path functions do, by cases on what [os.Stat]
    answers. Both stat the path first and report a stat error as a
    failure. On a directory [ScanFile] fails with [fs.ErrInvalid], and on
    a path its filter rejects it returns nil, in both cases with the stat
    as its only file-system call; otherwise it opens the file and hashes
    it with the fan-out. [processFile] opens and hashes whatever the stat
    found, directory or not, rejected by the filter or not. *)
Theorem per_path_processing (s : Scanner) (fs : FS) (path : string) :
  ScanFile s path fs
  = match fs_Stat fs path with
    | inr err => (Some (mkResult path 0 None (Some err)), [OpStat path])
    | inl info =>
        if IsDir info
        then (Some (mkResult path 0 None (Some ErrInvalid)), [OpStat path])
        else if filtered_out s path (info_Size info)
        then (None, [OpStat path])
        else (fst (hashed s fs path info),
              OpStat path :: snd (hashed s fs path info))
    end
  /\ processFile s path fs
  = match fs_Stat fs path with
    | inr err => (Some (mkResult path 0 None (Some err)), [OpStat path])
    | inl info => (fst (hashed s fs path info),
                   OpStat path :: snd (hashed s fs path info))
    end.
Proof. split; [apply ScanFile_cases|apply processFile_cases]. Qed.

(** The entry [d/link] passes the filter of the walk with its own 10
    bytes and is collected. [processFile] then hashes it: when the link
    leads to a directory the [Result] carries the read error, not
    [fs.ErrInvalid], and when it leads to a file of 1000 bytes, which the
    filter rejects, the file is read and its digests are reported. *)
Lemma processFile_skips_checks :
  walkFn at_most_100 "d" "d/link" link_entry None []
    = (WalkNil, ["d/link"%string], [])
  /\ (fs_Stat fs_link_to_dir "d/link" = inl (mkInfo true 4096)
      /\ processFile at_most_100 "d/link" fs_link_to_dir
         = (Some (mkResult "d/link" 4096 None
              (Some "failed to read data: read d/link: is a directory"%string)),
            [OpStat "d/link"; OpOpen "d/link"; OpRead "d/link"])
      /\ processFile at_most_100 "d/link" fs_link_to_dir
         <> ScanFile at_most_100 "d/link" fs_link_to_dir)
  /\ (fs_Stat fs_link_to_file "d/link" = inl (mkInfo false 1000)
      /\ filtered_out at_most_100 "d/link" 1000 = true
      /\ ScanFile at_most_100 "d/link" fs_link_to_file
         = (None, [OpStat "d/link"])
      /\ exists hashes,
           processFile at_most_100 "d/link" fs_link_to_file
           = (Some (mkResult "d/link" 1000 (Some hashes) None),
              [OpStat "d/link"; OpOpen "d/link"; OpRead "d/link"])).
Proof.
  split; [reflexivity|]. split.
  - split; [reflexivity|]. split; [reflexivity|]. discriminate.
  - split; [reflexivity|]. split; [reflexivity|]. split; [reflexivity|].
    eexists. vm_compute. reflexivity.
Qed.

(** C5: with one worker, a call of [ScanFiles] can always run to its
    end, and every call that does has dispatched every path of the list
    and has delivered, in the order of the list, what [ScanFile] made of
    each path. The error policy plays no part in this: under
    [FailOnError] the paths after a failing one are dispatched like the
    others. *)
Theorem ScanFiles_serial_dispatches_all (s : Scanner) (fs : FS)
    (paths : list string) :
  Workers s = 1%nat ->
  (exists final, ScanFiles_run s fs paths final)
  /\ forall final,
       ScanFiles_run s fs paths final ->
       dispatched final = paths
       /\ received final = flat_map (outcome s fs ScanFile) paths.
Proof.
  intros HW. split.
  - apply run_exists. lia.
  - intros final [Hsteps Hfin].
    destruct (finished_stream _ _ _ _ _ _ Hsteps Hfin) as [Hdisp Hrecv].
    destruct (steps_invariant_serial _ _ _ _ _ _ HW Hsteps) as [Hstream _].
    split; [done|congruence].
Qed.

Lemma run_missing_then_ok :
  ScanFiles_run fail_fast fs_two_files ["missing"%string; "ok.txt"%string]
                both_done.
Proof.
  split; [|done]. unfold steps, start.
  eapply rtc_l; [apply step_dispatch; simpl; lia|].
  eapply rtc_l; [apply (step_process_result _ _ _ _ _ missing_result
                          [OpStat "missing"] _ [] []); reflexivity|].
  eapply rtc_l; [apply (step_send _ _ _ _ _ _ [] []); simpl; lia|].
  eapply rtc_l; [apply step_receive|].
  eapply rtc_l; [apply step_dispatch; simpl; lia|].
  eapply rtc_l; [apply (step_process_result _ _ _ _ _ ok_result
                          [OpStat "ok.txt"; OpOpen "ok.txt"; OpRead "ok.txt"]
                          _ [] []); vm_compute; reflexivity|].
  eapply rtc_l; [apply (step_send _ _ _ _ _ _ [] []); simpl; lia|].
  eapply rtc_l; [apply step_receive|].
  eapply rtc_l; [apply step_close|].
  apply rtc_refl.
Qed.

(** Under [FailOnError] the path [missing] fails, and [ok.txt], which
    comes after it, is dispatched and hashed all the same. *)
Lemma ScanFiles_serial_dispatches_all_witness :
  OnError fail_fast = FailOnError
  /\ IsError missing_result = true
  /\ received both_done = [missing_result; ok_result]
  /\ dispatched both_done = ["missing"%string; "ok.txt"%string]
  /\ received both_done
     = flat_map (outcome fail_fast fs_two_files ScanFile)
                ["missing"%string; "ok.txt"%string].
Proof.
  split; [reflexivity|]. split; [reflexivity|]. split; [reflexivity|].
  apply (ScanFiles_serial_dispatches_all fail_fast fs_two_files
           ["missing"%string; "ok.txt"%string] eq_refl).
  apply run_missing_then_ok.
Defined.

(** C10: a path that [os.Stat] finds to be a file and that the configured
    filter rejects makes [ScanFile] return nil after the stat alone, and
    every call of [ScanFiles] over a list that holds that path delivers,
    once over, exactly the [Result]s of the other paths of the list:
    nothing is sent for the rejected path. *)
Theorem ScanFile_filtered_out_is_nil (s : Scanner) (fs : FS)
    (f : FilterOptions) (path : string) (info : FileInfo) :
  Filter s = Some f ->
  fs_Stat fs path = inl info -> IsDir info = false ->
  Match f path (info_Size info) = false ->
  ScanFile s path fs = (None, [OpStat path])
  /\ forall before after final,
       ScanFiles_run s fs (before ++ path :: after) final ->
       Permutation (received final)
         (flat_map (outcome s fs ScanFile) (before ++ after)).
Proof.
  intros Hf Hstat Hdir Hmatch.
  assert (Hnil : ScanFile s path fs = (None, [OpStat path])).
  { rewrite ScanFile_cases, Hstat, Hdir.
    unfold filtered_out. by rewrite Hf, Hmatch. }
  split; [done|]. intros before after final [Hsteps Hfin].
  destruct (finished_stream _ _ _ _ _ _ Hsteps Hfin) as [_ <-].
  destruct (steps_invariant _ _ _ _ _ _ Hsteps) as (-> & _ & _).
  rewrite !flat_map_app'. simpl.
  unfold outcome at 2. by rewrite Hnil.
Qed.

(** Two workers in flight at once: [big.bin] is dropped, [ok.txt] is
    hashed. *)
Lemma run_big_then_ok :
  ScanFiles_run at_most_100 fs_two_files
                ["big.bin"%string; "ok.txt"%string] only_ok_sent.
Proof.
  split; [|done]. unfold steps, start.
  eapply rtc_l; [apply step_dispatch; simpl; lia|].
  eapply rtc_l; [apply step_dispatch; simpl; lia|].
  eapply rtc_l; [apply (step_process_nil _ _ _ _ _ [OpStat "big.bin"]
                          _ [] [Processing "ok.txt"]); reflexivity|].
  eapply rtc_l; [apply (step_process_result _ _ _ _ _ ok_result
                          [OpStat "ok.txt"; OpOpen "ok.txt"; OpRead "ok.txt"]
                          _ [] []); vm_compute; reflexivity|].
  eapply rtc_l; [apply (step_send _ _ _ _ _ _ [] []); simpl; lia|].
  eapply rtc_l; [apply step_receive|].
  eapply rtc_l; [apply step_close|].
  apply rtc_refl.
Qed.

Lemma ScanFile_filtered_out_is_nil_witness :
  ScanFile at_most_100 "big.bin" fs_two_files = (None, [OpStat "big.bin"])
  /\ Permutation (received only_ok_sent)
       (flat_map (outcome at_most_100 fs_two_files ScanFile)
                 ([] ++ ["ok.txt"%string])).
Proof.
  destruct (ScanFile_filtered_out_is_nil at_most_100 fs_two_files
              (mkFilter 100 0 [] [] [] []) "big.bin" (mkInfo false 1000)
              eq_refl eq_refl eq_refl eq_refl) as [Hnil Hruns].
  split; [exact Hnil|].
  apply (Hruns [] ["ok.txt"%string] only_ok_sent). apply run_big_then_ok.
Defined.

End ScannerProofs.

(** * Further properties *)

(** ** QuickXor: the shape of a digest *)

Section QuickXorMore.

Import quickxorhash.

#[local] Arguments Nat.modulo : simpl never.
#[local] Arguments Z.modulo : simpl never.
#[local] Arguments Z.pow : simpl never.
#[local] Arguments Z.of_nat : simpl never.
#[local] Opaque dataSize.

Lemma byte_is_byte (x : Z) : is_byte (byte x).
Proof.
  unfold is_byte, byte. change 255 with (Z.ones 8).
  rewrite Z.land_ones by lia. apply Z.mod_pos_bound. lia.
Qed.

Lemma is_byte_land (x : Z) : is_byte x <-> byte x = x.
Proof.
  split.
  - intros H. unfold byte. change 255 with (Z.ones 8).
    rewrite Z.land_ones by lia. apply Z.mod_small. exact H.
  - intros <-. apply byte_is_byte.
Qed.

Lemma is_byte_lxor (x y : Z) : is_byte x -> is_byte y -> is_byte (Z.lxor x y).
Proof.
  intros Hx Hy. apply is_byte_land in Hx, Hy. apply is_byte_land.
  rewrite <- Hx, <- Hy at 2. unfold byte.
  apply Z.bits_inj'. intros n Hn.
  rewrite Z.land_spec, !Z.lxor_spec, !Z.land_spec.
  by destruct (Z.testbit x n), (Z.testbit y n), (Z.testbit 255 n).
Qed.

Lemma is_byte_nth (h : list Z) (k : nat) :
  Forall is_byte h -> is_byte (nth k h 0).
Proof.
  intros Hh. destruct (nth_lookup_or_length h k 0) as [Hk|Hk].
  - eapply Forall_lookup_1; eauto.
  - rewrite nth_overflow by lia. unfold is_byte. lia.
Qed.

Lemma xor_at_length (k : nat) (v : Z) (h : list Z) :
  length (xor_at k v h) = length h.
Proof. apply length_insert. Qed.

Lemma xor_at_bytes (k : nat) (v : Z) (h : list Z) :
  is_byte v -> Forall is_byte h -> Forall is_byte (xor_at k v h).
Proof.
  intros Hv Hh. unfold xor_at. apply Forall_insert; [done|].
  apply is_byte_lxor; [by apply is_byte_nth|done].
Qed.

Lemma checkSum_step_inv (x i : Z) (h : list Z) :
  Forall is_byte h ->
  Forall is_byte (checkSum_step x i h)
  /\ length (checkSum_step x i h) = length h.
Proof.
  intros Hh. unfold checkSum_step. split.
  - repeat apply xor_at_bytes; try apply byte_is_byte; done.
  - by rewrite !xor_at_length.
Qed.

Lemma checkSum_loop_inv (d : list Z) : forall i h,
  Forall is_byte h ->
  Forall is_byte (checkSum_loop d i h)
  /\ length (checkSum_loop d i h) = length h.
Proof.
  induction d as [|x d IH]; intros i h Hh; simpl; [done|].
  destruct (checkSum_step_inv x i h Hh) as [Hb Hl].
  destruct (IH (i + 1) _ Hb) as [Hb' Hl']. split; [done|congruence].
Qed.

(** The scratch of [checkSum] has 21 bytes, whatever the accumulator
    holds. *)
Lemma checkSum_inv (q : quickXorHash) :
  Forall is_byte (fst (checkSum q)) /\ length (fst (checkSum q)) = 21%nat.
Proof.
  unfold checkSum, mbind, M_bind, get_data, get_size, mret, M_ret.
  cbn [fst].
  destruct (checkSum_loop_inv (data q) 0 (replicate (Size + 1) 0))
    as [Hb Hl].
  { apply Forall_replicate. unfold is_byte. lia. }
  rewrite length_replicate in Hl.
  split.
  - repeat apply xor_at_bytes; try apply byte_is_byte; try done.
    by apply is_byte_nth.
  - by rewrite !xor_at_length.
Qed.

(** [Sum] appends to [b] exactly [Size()] bytes, each of them a byte,
    for every accumulator. *)
Theorem Sum_appends_Size_bytes (q : quickXorHash) (b : list Z) :
  exists digest,
    fst (Sum b q) = b ++ digest
    /\ Z.of_nat (length digest) = fst (quickXorHash_Size q)
    /\ Forall is_byte digest.
Proof.
  destruct (checkSum_inv q) as [Hb Hl].
  exists (take Size (fst (checkSum q))).
  unfold Sum, mbind, M_bind, mret, M_ret.
  destruct (checkSum q) as [h q'] eqn:E. cbn [fst] in *.
  split; [done|]. split.
  - rewrite length_take, Hl. done.
  - by apply Forall_take.
Qed.

(** The function [Sum] of the package returns what the method [Sum]
    appends to nil after one [Write] on a new accumulator. *)
Theorem package_Sum_is_method_Sum (data : list Z) :
  quickxorhash_Sum data = quickxor_digest data.
Proof.
  unfold quickxorhash_Sum, quickxor_digest, go_copy.
  set (q := snd (Write data New)).
  destruct (checkSum_inv q) as [_ Hl].
  unfold Sum, mbind, M_bind, mret, M_ret.
  destruct (checkSum q) as [h q'] eqn:E. cbn [fst] in *.
  rewrite length_replicate, Hl.
  rewrite drop_ge by (rewrite length_replicate; unfold Size; lia).
  by rewrite app_nil_r.
Qed.

Lemma xor_circ_bytes (p : list Z) : forall d pos,
  Forall is_byte d -> Forall is_byte p -> Forall is_byte (xor_circ d pos p).
Proof.
  induction p as [|b p IH]; intros d pos Hd Hp; simpl; [done|].
  apply Forall_cons in Hp as [Hb Hp]. apply IH; [|done].
  apply Forall_insert; [done|].
  apply is_byte_lxor; [done|by apply is_byte_nth].
Qed.

(** [Write] takes all of [p], keeps the buffer a full buffer of bytes and
    advances the counter by [len(p)] modulo [2^64]. *)
Theorem Write_keeps_valid (q : quickXorHash) (p : list Z) :
  valid q -> Forall is_byte p ->
  fst (Write p q) = length p
  /\ valid (snd (Write p q))
  /\ size (snd (Write p q)) = (size q + Z.of_nat (length p)) mod 2 ^ 64.
Proof.
  intros [Hwf Hbytes] Hp.
  pose proof (absorb_spec p q Hwf) as Hspec.
  pose proof (absorb_well_formed p q Hwf) as Hwf'.
  unfold absorb in *. destruct Hwf as [Hd Hs].
  destruct q as [d sz]; simpl in *.
  rewrite Write_spec by (done || lia). simpl.
  rewrite Write_spec in Hspec, Hwf' by (done || lia). simpl in *.
  split; [done|]. split; [|done]. split; [done|]. simpl.
  by apply xor_circ_bytes.
Qed.

Lemma Write_keeps_valid_witness :
  valid New /\ Forall is_byte (bytes_of_string "hello")
  /\ fst (Write (bytes_of_string "hello") New) = 5%nat
  /\ size (snd (Write (bytes_of_string "hello") New)) = (0 + 5) mod 2 ^ 64.
Proof.
  assert (Hv : valid New).
  { split; [apply New_well_formed|].
    apply Forall_replicate. unfold is_byte. lia. }
  assert (Hp : Forall is_byte (bytes_of_string "hello")).
  { repeat constructor; unfold is_byte; simpl; lia. }
  destruct (Write_keeps_valid New (bytes_of_string "hello") Hv Hp)
    as (Hn & _ & Hsz).
  split; [exact Hv|]. split; [exact Hp|]. split; [exact Hn|exact Hsz].
Defined.

(** *** Blocks of the buffer's length may trade places *)

Lemma xor1_comm (p p' : nat) (a b : Z) (d : list Z) :
  xor1 p a (xor1 p' b d) = xor1 p' b (xor1 p a d).
Proof.
  unfold xor1. destruct (decide (p = p')) as [->|Hne].
  - destruct (decide (p' < length d)%nat) as [Hlt|Hge].
    + rewrite !nth_lookup, !list_lookup_insert_eq by done. simpl.
      rewrite !list_insert_insert_eq. f_equal.
      rewrite <- !Z.lxor_assoc. f_equal. apply Z.lxor_comm.
    + by rewrite !list_insert_ge by (rewrite ?length_insert; lia).
  - rewrite !nth_lookup, !list_lookup_insert_ne by done.
    by rewrite list_insert_insert_ne.
Qed.

Lemma xor_circ_xor1 (B : list Z) : forall d p' p a,
  xor_circ (xor1 p a d) p' B = xor1 p a (xor_circ d p' B).
Proof.
  induction B as [|b B IH]; intros d p' p a; simpl; [done|].
  fold (xor1 p' b (xor1 p a d)). fold (xor1 p' b d).
  by rewrite xor1_comm, IH.
Qed.

(** Two runs over the buffer commute, wherever each starts. *)
Lemma xor_circ_comm (A : list Z) : forall d p p' B,
  xor_circ (xor_circ d p A) p' B = xor_circ (xor_circ d p' B) p A.
Proof.
  induction A as [|a A IH]; intros d p p' B; simpl; [done|].
  fold (xor1 p a d). fold (xor1 p a (xor_circ d p' B)).
  by rewrite IH, xor_circ_xor1.
Qed.

Lemma absorb_blocks_comm (A B : list Z) (q : quickXorHash) :
  well_formed q ->
  (length A mod dataSize = 0)%nat -> (length B mod dataSize = 0)%nat ->
  size q + Z.of_nat (length A) + Z.of_nat (length B) < 2 ^ 64 ->
  absorb B (absorb A q) = absorb A (absorb B q).
Proof.
  intros Hq HA HB Hlt. pose proof dataSize_eq as HD.
  rewrite (absorb_spec B) by (by apply absorb_well_formed).
  rewrite (absorb_spec A (absorb B q)) by (by apply absorb_well_formed).
  rewrite !absorb_spec by done. destruct Hq as [Hd Hs].
  destruct q as [d sz]; simpl in *.
  rewrite (Z.mod_small (sz + Z.of_nat (length A))) by lia.
  rewrite (Z.mod_small (sz + Z.of_nat (length B))) by lia.
  assert (Hpos : forall n : nat, (n mod dataSize = 0)%nat ->
            (sz + Z.of_nat n) mod Z.of_nat dataSize
            = sz mod Z.of_nat dataSize).
  { intros n Hn. rewrite <- Zplus_mod_idemp_r.
    rewrite <- Nat2Z.inj_mod, Hn. simpl. by rewrite Z.add_0_r. }
  rewrite !Hpos by done. f_equal.
  - apply xor_circ_comm.
  - rewrite !Z.mod_small by lia. lia.
Qed.

(** The digest does not see two neighbouring pieces of the input trade
    places when the length of each is a multiple of the buffer's. *)
Theorem digest_blind_to_block_swap (pre A B post : list Z) :
  (length A mod dataSize = 0)%nat -> (length B mod dataSize = 0)%nat ->
  Z.of_nat (length (pre ++ A ++ B ++ post)) <= maxInt ->
  quickxor_digest (pre ++ A ++ B ++ post)
  = quickxor_digest (pre ++ B ++ A ++ post).
Proof.
  intros HA HB Hlen. unfold quickxor_digest.
  fold (absorb (pre ++ A ++ B ++ post) New).
  fold (absorb (pre ++ B ++ A ++ post) New).
  f_equal. f_equal.
  assert (Hlen' : Z.of_nat (length (pre ++ B ++ A ++ post)) <= maxInt).
  { rewrite !length_app in *. lia. }
  pose proof (quickxor_chunk_absorb [pre; A; B; post]) as H1.
  pose proof (quickxor_chunk_absorb [pre; B; A; post]) as H2.
  simpl in H1, H2. rewrite app_nil_r in H1, H2.
  destruct (H1 Hlen) as [<- _]. destruct (H2 Hlen') as [<- _].
  unfold absorb_all. simpl. f_equal.
  apply absorb_blocks_comm; [|done|done|].
  - apply absorb_well_formed, New_well_formed.
  - rewrite absorb_spec by apply New_well_formed. simpl.
    unfold maxInt in Hlen. rewrite !length_app in Hlen.
    rewrite Z.mod_small by lia. lia.
Qed.

Lemma digest_blind_to_block_swap_witness :
  quickxor_digest (bytes_of_string "a" ++ replicate 1760 1
                   ++ replicate 1760 2 ++ bytes_of_string "z")
  = quickxor_digest (bytes_of_string "a" ++ replicate 1760 2
                     ++ replicate 1760 1 ++ bytes_of_string "z").
Proof.
  apply (digest_blind_to_block_swap (bytes_of_string "a")
           (replicate 1760 1) (replicate 1760 2) (bytes_of_string "z")).
  - vm_compute. reflexivity.
  - vm_compute. reflexivity.
  - vm_compute. discriminate.
Defined.

(** *** The digest of zero bytes is their number *)

Lemma xor_circ_zeros (n : nat) : forall d pos,
  xor_circ d pos (replicate n 0) = d.
Proof.
  induction n as [|n IH]; intros d pos; simpl; [done|].
  rewrite IH. destruct (nth_lookup_or_length d pos 0) as [Hk|Hk].
  - by apply list_insert_id.
  - by apply list_insert_ge.
Qed.

Lemma xor_at_zero (k : nat) (h : list Z) : xor_at k 0 h = h.
Proof.
  unfold xor_at. rewrite Z.lxor_0_r.
  destruct (nth_lookup_or_length h k 0) as [Hk|Hk].
  - by apply list_insert_id.
  - by apply list_insert_ge.
Qed.

Lemma checkSum_loop_zeros (n : nat) : forall i h,
  checkSum_loop (replicate n 0) i h = h.
Proof.
  induction n as [|n IH]; intros i h; simpl; [done|].
  rewrite IH. unfold checkSum_step.
  rewrite Z.shiftl_0_l, Z.shiftr_0_l.
  change (byte 0) with 0. by rewrite !xor_at_zero.
Qed.

(** The digest of [n] zero bytes is twelve zero bytes and then [n] in
    eight bytes, lowest first: inputs of zeros of different lengths have
    different digests. *)
Theorem digest_of_zeros (n : nat) :
  Z.of_nat n <= maxInt ->
  quickxor_digest (replicate n 0) = replicate 12 0 ++ le64 (Z.of_nat n).
Proof.
  intros Hn. unfold maxInt in Hn. unfold quickxor_digest.
  fold (absorb (replicate n 0) New).
  rewrite absorb_spec by apply New_well_formed.
  unfold New at 1 2. cbn [data size].
  rewrite xor_circ_zeros, length_replicate, Z.add_0_l.
  rewrite Z.mod_small by lia.
  unfold Sum, checkSum, mbind, M_bind, get_data, get_size, mret, M_ret.
  cbn [fst data size]. rewrite checkSum_loop_zeros.
  reflexivity.
Qed.

Lemma digest_of_zeros_witness :
  quickxor_digest (replicate 300 0)
  = replicate 12 0 ++ [44; 1; 0; 0; 0; 0; 0; 0].
Proof.
  apply (digest_of_zeros 300). vm_compute. discriminate.
Defined.

#[local] Transparent dataSize.

End QuickXorMore.

(** ** The fan-out and the registry *)

Section HasherMore.

Import hasher.

Lemma collect_dom (l : list (Hasher * Hash)) :
  forall results : gmap string string,
  dom (fold_left collect l results)
  = dom results ∪ list_to_set (map (fun hh => Name (fst hh)) l).
Proof.
  induction l as [|[h hash] l IH]; intros results; cbn [fold_left map].
  - by rewrite list_to_set_nil, union_empty_r_L.
  - rewrite IH, collect_insert, dom_insert_L, list_to_set_cons. simpl.
    rewrite (comm_L (∪) {[Name h]} (dom results)).
    by rewrite (assoc_L (∪)).
Qed.

Lemma HashReader_cases (r : Reader) (hashers : list Hasher) :
  match HashReader r hashers with
  | Ok results =>
      hashers <> [] /\ read_error r = None
      /\ dom results = list_to_set (map Name hashers)
  | Err e =>
      (hashers = [] /\ e = "no hashers provided"%string)
      \/ (hashers <> []
          /\ exists err, read_error r = Some err
                         /\ e = ("failed to read data: " ++ err)%string)
  end.
Proof.
  unfold HashReader. destruct hashers as [|h hs]; [by left|].
  set (hashers := h :: hs).
  replace (length hashers =? 0)%nat with false by done.
  pose proof (io_Copy_each r (map New hashers)) as Hcopy.
  destruct (io_Copy (map New hashers) r) as [hashes err] eqn:E.
  assert (err = read_error r) as -> by (unfold io_Copy in E; congruence).
  cbn [fst] in Hcopy. subst hashes.
  destruct (read_error r) as [e|]; [right; eauto|].
  split; [done|]. split; [done|].
  rewrite map_map, zip_map_r, collect_dom, map_map. simpl.
  by rewrite dom_empty_L, union_empty_l_L.
Qed.

(** [HashReader] fails in two cases only, without hashers and on a read
    error, with one message for each; when it succeeds the map returned
    has a digest under the name of every hasher and under no other
    key. *)
Theorem HashReader_outcome (r : Reader) (hashers : list Hasher) :
  match HashReader r hashers with
  | Ok results =>
      hashers <> [] /\ read_error r = None
      /\ dom results = list_to_set (map Name hashers)
  | Err e =>
      (hashers = [] /\ e = "no hashers provided"%string)
      \/ (hashers <> []
          /\ exists err, read_error r = Some err
                         /\ e = ("failed to read data: " ++ err)%string)
  end.
Proof. apply HashReader_cases. Qed.

Lemma PutUint64_roundtrip (v : Z) :
  0 <= v < 2 ^ 64 ->
  BigEndian_value (PutUint64 v) = v /\ length (PutUint64 v) = 8%nat.
Proof.
  intros Hv. split; [|done].
  unfold BigEndian_value, PutUint64, byte. cbn [fold_left].
  change 255 with (Z.ones 8). rewrite !Z.land_ones by lia.
  rewrite !Z.shiftr_div_pow2 by lia.
  pose proof (Z.div_mod v (2 ^ 8)) as H0.
  pose proof (Z.div_mod (v / 2 ^ 8) (2 ^ 8)) as H1.
  pose proof (Z.div_mod (v / 2 ^ 16) (2 ^ 8)) as H2.
  pose proof (Z.div_mod (v / 2 ^ 24) (2 ^ 8)) as H3.
  pose proof (Z.div_mod (v / 2 ^ 32) (2 ^ 8)) as H4.
  pose proof (Z.div_mod (v / 2 ^ 40) (2 ^ 8)) as H5.
  pose proof (Z.div_mod (v / 2 ^ 48) (2 ^ 8)) as H6.
  pose proof (Z.div_mod (v / 2 ^ 56) (2 ^ 8)) as H7.
  rewrite !Z.div_div in * by lia.
  change (2 ^ 8 * 2 ^ 8) with (2 ^ 16) in *.
  change (2 ^ 16 * 2 ^ 8) with (2 ^ 24) in *.
  change (2 ^ 24 * 2 ^ 8) with (2 ^ 32) in *.
  change (2 ^ 32 * 2 ^ 8) with (2 ^ 40) in *.
  change (2 ^ 40 * 2 ^ 8) with (2 ^ 48) in *.
  change (2 ^ 48 * 2 ^ 8) with (2 ^ 56) in *.
  change (2 ^ 56 * 2 ^ 8) with (2 ^ 64) in *.
  assert (v / 2 ^ 64 = 0) by (apply Z.div_small; lia).
  change (2 ^ 8) with 256 in *.
  lia.
Qed.

Lemma BigEndian_value_app (a b : list Z) :
  BigEndian_value (a ++ b)
  = BigEndian_value a * 256 ^ Z.of_nat (length b) + BigEndian_value b.
Proof.
  unfold BigEndian_value. rewrite fold_left_app.
  generalize (fold_left (fun acc x => acc * 256 + x) a 0). intros acc.
  revert acc. induction b as [|x b IH]; intros acc.
  - simpl. lia.
  - cbn [fold_left length]. rewrite IH, (IH (0 * 256 + x)).
    rewrite Nat2Z.inj_succ, Z.pow_succ_r by lia. lia.
Qed.

End HasherMore.

Section RegistryMore.

Import hasher.

Variables md5_New sha1_New sha256_New sha512_New blake3_New : Hash.
Variable xxh3_Hasher : Type.
Variable xxh3_New : xxh3_Hasher.
Variable xxh3_Write : list Z -> xxh3_Hasher -> xxh3_Hasher.
Variable xxh3_Sum64 : xxh3_Hasher -> Z.
Variable xxh3_Sum128 : xxh3_Hasher -> Z * Z.

Abbreviation registry'' :=
  (registry md5_New sha1_New sha256_New sha512_New blake3_New
            xxh3_Hasher xxh3_New xxh3_Write xxh3_Sum64 xxh3_Sum128).
Abbreviation Get'' :=
  (Get md5_New sha1_New sha256_New sha512_New blake3_New
       xxh3_Hasher xxh3_New xxh3_Write xxh3_Sum64 xxh3_Sum128).
Abbreviation List'' :=
  (List md5_New sha1_New sha256_New sha512_New blake3_New
        xxh3_Hasher xxh3_New xxh3_Write xxh3_Sum64 xxh3_Sum128).
Abbreviation parse_loop'' :=
  (parse_loop md5_New sha1_New sha256_New sha512_New blake3_New
       xxh3_Hasher xxh3_New xxh3_Write xxh3_Sum64 xxh3_Sum128).
Abbreviation Parse'' :=
  (Parse md5_New sha1_New sha256_New sha512_New blake3_New
       xxh3_Hasher xxh3_New xxh3_Write xxh3_Sum64 xxh3_Sum128).

(** [List] gives the nine registered names in ascending order; [Get]
    finds a hasher for a name of ASCII bytes exactly when the name is,
    up to the case of its letters, one of that list, and the hasher
    found is the one of that name. *)
Theorem List_and_Get :
  List'' = ["blake3"; "crc32"; "md5"; "quickxor"; "sha1"; "sha256";
            "sha512"; "xxh128"; "xxh3"]%string
  /\ (forall name,
        ascii_only name ->
        (is_Some (Get'' name) <-> strings_ToLower name ∈ List''))
  /\ (forall name,
        ascii_only name -> Get'' (strings_ToLower name) = Get'' name)
  /\ (forall name h,
        ascii_only name ->
        Get'' name = Some h -> Name h = strings_ToLower name).
Proof.
  split; [vm_compute; reflexivity|]. split; [|split].
  - intros name _. unfold Get, List, sort_Strings.
    rewrite merge_sort_Permutation.
    rewrite list_elem_of_fmap. split.
    + intros [h Hh]. exists (strings_ToLower name, h). split; [done|].
      by apply elem_of_map_to_list.
    + intros ([key h] & -> & Hin). apply elem_of_map_to_list in Hin.
      by exists h.
  - intros name _. unfold Get. by rewrite ToLower_idem.
  - intros name h _ Hget. unfold Get in Hget.
    by apply registry_key_name in Hget.
Qed.

(** What the loop of [Parse] adds to the selection: registered hashers,
    filed under their own non-empty names, in the order of the entries
    they come from, one for every entry that is neither blank nor a name
    seen before. *)
Lemma parse_loop_adds (parts : list string) :
  forall (seen : gmap string bool) hashers hashers',
  parse_loop'' parts seen hashers = inr hashers' ->
  exists new,
    hashers' = hashers ++ new
    /\ Forall (fun h => Get'' (Name h) = Some h /\ Name h <> ""%string) new
    /\ sublist (map Name new) (map entry_name parts)
    /\ Forall (fun part => entry_name part = ""%string
                  \/ default false (seen !! entry_name part) = true
                  \/ entry_name part ∈ map Name new) parts.
Proof.
  induction parts as [|part parts IH]; intros seen hashers hashers'.
  { intros [= <-]. exists []. rewrite app_nil_r.
    repeat split; constructor. }
  cbn [parse_loop]. fold (entry_name part).
  destruct (String.eqb_spec (entry_name part) "") as [Hblank|Hname].
  { intros H. apply IH in H as (new & -> & Hreg & Hsub & Hcov).
    exists new. split; [done|]. split; [done|]. split.
    - cbn [map]. by apply sublist_cons.
    - constructor; [by left|done]. }
  destruct (default false (seen !! entry_name part)) eqn:Hs.
  { intros H. apply IH in H as (new & -> & Hreg & Hsub & Hcov).
    exists new. split; [done|]. split; [done|]. split.
    - cbn [map]. by apply sublist_cons.
    - constructor; [by right; left|done]. }
  destruct (Get'' (entry_name part)) as [h|] eqn:Hget; [|done].
  assert (Hkey : Name h = entry_name part).
  { unfold Get in Hget. rewrite entry_name_lower in Hget.
    by apply registry_key_name in Hget. }
  intros H. apply IH in H as (new & -> & Hreg & Hsub & Hcov).
  exists (h :: new). split; [by rewrite <- app_assoc|]. split; [|split].
  - constructor; [|done]. rewrite Hkey. by split.
  - cbn [map]. rewrite Hkey. by apply sublist_skip.
  - constructor.
    + right; right. cbn [map]. rewrite Hkey. apply list_elem_of_here.
    + eapply Forall_impl; [exact Hcov|]. intros part' Hpart'. simpl in Hpart'.
      destruct Hpart' as [Hb|[Hseen|Hin]]; [by left| |].
      * destruct (decide (entry_name part = entry_name part')) as [Heq|Hne].
        -- right; right. cbn [map]. rewrite Hkey, Heq. apply list_elem_of_here.
        -- rewrite lookup_insert_ne in Hseen by done. by right; left.
      * right; right. cbn [map]. by apply list_elem_of_further.
Qed.

(** The names of the selection the loop of [Parse] returns: those of the
    selection it started from, and then the non-blank entries not seen
    before, each once, in the order of their first appearance. *)
Lemma parse_loop_order (parts : list string) :
  forall (seen : gmap string bool) hashers hashers',
  parse_loop'' parts seen hashers = inr hashers' ->
  map Name hashers'
  = map Name hashers
    ++ filter (fun n => default false (seen !! n) = false)
         (first_occurrences
            (filter (fun n => n <> ""%string) (map entry_name parts))).
Proof.
  induction parts as [|part parts IH]; intros seen hashers hashers'.
  { intros [= <-]. simpl. by rewrite app_nil_r. }
  cbn [parse_loop map]. fold (entry_name part).
  destruct (String.eqb_spec (entry_name part) "") as [Hblank|Hname].
  { rewrite filter_cons_False by (by intros ?). apply IH. }
  rewrite filter_cons_True by done. cbn [first_occurrences].
  destruct (default false (seen !! entry_name part)) eqn:Hs.
  { intros H. rewrite (IH _ _ _ H). f_equal.
    rewrite filter_cons_False by (by rewrite Hs).
    rewrite list_filter_filter. apply list_filter_iff.
    intros n. split; [|by intros [? _]]. intros Hn. split; [done|].
    intros ->. by rewrite Hs in Hn. }
  destruct (Get'' (entry_name part)) as [h|] eqn:Hget; [|done].
  assert (Hkey : Name h = entry_name part).
  { unfold Get in Hget. rewrite entry_name_lower in Hget.
    by apply registry_key_name in Hget. }
  intros H. rewrite (IH _ _ _ H), map_app, <- app_assoc. f_equal.
  cbn [map app]. rewrite Hkey, filter_cons_True by done. f_equal.
  rewrite list_filter_filter. apply list_filter_iff.
  intros n. destruct (decide (entry_name part = n)) as [<-|Hne].
  - rewrite lookup_insert_eq. simpl. split; [done|by intros [_ ?]].
  - rewrite lookup_insert_ne by done. split; [|by intros [? _]].
    intros Hn. split; [done|]. intros Heq. by apply Hne.
Qed.

Lemma filter_unseen_empty (l : list string) :
  filter (fun n => default false ((∅ : gmap string bool) !! n) = false) l = l.
Proof.
  induction l as [|x l IH]; [done|].
  rewrite filter_cons_True by (by rewrite lookup_empty). by rewrite IH.
Qed.

(** A selection [Parse] returns for a list of ASCII bytes is not empty
    and holds registered hashers with distinct names; its names are
    the non-blank entries of the list, trimmed and in lower case, each
    once, in the order of their first appearance. *)
Theorem Parse_success (names : string) (hashers : list Hasher) :
  ascii_only names ->
  Parse'' names = inr hashers ->
  hashers <> []
  /\ NoDup (map Name hashers)
  /\ Forall (fun h => Get'' (Name h) = Some h) hashers
  /\ sublist (map Name hashers)
             (map entry_name (strings_Split names ","%char))
  /\ (forall name,
        name ∈ map Name hashers
        <-> name <> ""%string
            /\ name ∈ map entry_name (strings_Split names ","%char))
  /\ map Name hashers
     = first_occurrences
         (filter (fun n => n <> ""%string)
                 (map entry_name (strings_Split names ","%char))).
Proof.
  intros _ Hparse.
  pose proof (Parse_names_distinct _ _ _ _ _ _ _ _ _ _ _ _ Hparse) as Hnd.
  unfold Parse in Hparse. destruct (String.eqb names ""); [done|].
  destruct (parse_loop'' (strings_Split names ","%char) ∅ [])
    as [e|hs] eqn:Hloop; [done|].
  destruct hs as [|h hs]; [done|]. simpl in Hparse.
  injection Hparse as <-.
  pose proof (parse_loop_order _ _ _ _ Hloop) as Horder.
  apply parse_loop_adds in Hloop as (new & Hnew & Hreg & Hsub & Hcov).
  simpl in Hnew. subst new.
  split; [done|]. split; [done|]. split; [|split; [done|split]].
  3:{ rewrite Horder. cbn [map app]. apply filter_unseen_empty. }
  - eapply Forall_impl; [exact Hreg|]. by intros h' [H _].
  - intros name. split.
    + intros Hin. split.
      * apply list_elem_of_fmap in Hin as (h' & -> & Hin).
        rewrite Forall_forall in Hreg. by apply Hreg in Hin as [_ H].
      * eapply elem_of_sublist; [exact Hin|exact Hsub].
    + intros [Hne Hin].
      apply list_elem_of_fmap in Hin as (part & -> & Hin).
      rewrite Forall_forall in Hcov. apply Hcov in Hin.
      destruct Hin as [Hb|[Hseen|Hin]]; [done| |done].
      by rewrite lookup_empty in Hseen.
Qed.

(** [Sum] of the two XXH3 adapters appends the 64-bit sum, or the high
    and then the low half of the 128-bit sum, highest byte first, in as
    many bytes as [OutputSize] and [Size] say. *)
Theorem xxh3_Sum_big_endian (x : xxh3_Hasher) (b : list Z) :
  0 <= xxh3_Sum64 x < 2 ^ 64 ->
  0 <= fst (xxh3_Sum128 x) < 2 ^ 64 ->
  0 <= snd (xxh3_Sum128 x) < 2 ^ 64 ->
  exists d64 d128,
    sum (xxh3Hash64 xxh3_Hasher xxh3_New xxh3_Write xxh3_Sum64) b x
      = b ++ d64
    /\ Z.of_nat (length d64) = xxh3Hash64_Size
    /\ xxh3Hash64_Size
       = OutputSize (xxh3Hasher xxh3_Hasher xxh3_New xxh3_Write xxh3_Sum64)
    /\ BigEndian_value d64 = xxh3_Sum64 x
    /\ sum (xxh3Hash128 xxh3_Hasher xxh3_New xxh3_Write xxh3_Sum128) b x
      = b ++ d128
    /\ Z.of_nat (length d128) = xxh3Hash128_Size
    /\ xxh3Hash128_Size
       = OutputSize (xxh128Hasher xxh3_Hasher xxh3_New xxh3_Write xxh3_Sum128)
    /\ BigEndian_value d128
       = fst (xxh3_Sum128 x) * 2 ^ 64 + snd (xxh3_Sum128 x).
Proof.
  intros H64 Hhi Hlo.
  destruct (xxh3_Sum128 x) as [hi lo] eqn:E. cbn [fst snd] in *.
  destruct (PutUint64_roundtrip _ H64) as [Hv Hl].
  destruct (PutUint64_roundtrip _ Hhi) as [Hvhi Hlhi].
  destruct (PutUint64_roundtrip _ Hlo) as [Hvlo Hllo].
  exists (PutUint64 (xxh3_Sum64 x)), (PutUint64 hi ++ PutUint64 lo).
  split; [done|]. split; [by rewrite Hl|]. split; [done|].
  split; [done|]. split; [by cbn [sum xxh3Hash128]; rewrite E|].
  split; [by rewrite length_app, Hlhi, Hllo|]. split; [done|].
  rewrite BigEndian_value_app, Hvhi, Hvlo, Hllo. done.
Qed.

End RegistryMore.

Lemma xxh3_Sum_big_endian_witness :
  exists d64 d128,
    hasher.sum (hasher.xxh3Hash64 Z 0 (fun _ s => s) (fun s => s))
               [] 0x0102030405060708 = [] ++ d64
    /\ Z.of_nat (length d64) = xxh3Hash64_Size
    /\ xxh3Hash64_Size = 8
    /\ BigEndian_value d64 = 0x0102030405060708
    /\ hasher.sum (hasher.xxh3Hash128 Z 0 (fun _ s => s) (fun s => (s, 7)))
                  [] 0x0102030405060708 = [] ++ d128
    /\ Z.of_nat (length d128) = xxh3Hash128_Size
    /\ xxh3Hash128_Size = 16
    /\ BigEndian_value d128 = 0x0102030405060708 * 2 ^ 64 + 7.
Proof.
  apply (xxh3_Sum_big_endian Z 0 (fun _ s => s) (fun s => s)
           (fun s => (s, 7)) 0x0102030405060708 []);
    simpl; lia.
Defined.


Lemma Parse_success_witness :
  [hasher.md5Hasher null_registry.null_Hash;
   hasher.sha256Hasher null_registry.null_Hash] <> []
  /\ NoDup (map hasher.Name [hasher.md5Hasher null_registry.null_Hash;
                             hasher.sha256Hasher null_registry.null_Hash])
  /\ Forall (fun h => null_registry.Get (hasher.Name h) = Some h)
            [hasher.md5Hasher null_registry.null_Hash;
             hasher.sha256Hasher null_registry.null_Hash]
  /\ sublist (map hasher.Name [hasher.md5Hasher null_registry.null_Hash;
                               hasher.sha256Hasher null_registry.null_Hash])
             (map entry_name (strings_Split "MD5, sha256 , md5" ","%char))
  /\ (forall name,
        name ∈ map hasher.Name [hasher.md5Hasher null_registry.null_Hash;
                                hasher.sha256Hasher null_registry.null_Hash]
        <-> name <> ""%string
            /\ name ∈ map entry_name
                         (strings_Split "MD5, sha256 , md5" ","%char))
  /\ map hasher.Name [hasher.md5Hasher null_registry.null_Hash;
                      hasher.sha256Hasher null_registry.null_Hash]
     = first_occurrences
         (filter (fun n => n <> ""%string)
                 (map entry_name
                      (strings_Split "MD5, sha256 , md5" ","%char))).
Proof.
  apply (Parse_success null_registry.null_Hash null_registry.null_Hash
           null_registry.null_Hash null_registry.null_Hash
           null_registry.null_Hash unit tt (fun _ s => s) (fun _ => 0)
           (fun _ => (0, 0)) "MD5, sha256 , md5"
           [hasher.md5Hasher null_registry.null_Hash;
            hasher.sha256Hasher null_registry.null_Hash]).
  - unfold ascii_only. simpl. repeat constructor.
  - vm_compute. reflexivity.
Defined.

(** ** The filter: how its lists are read *)

Section FilterMore.

Import scanner.

Lemma ToLower_app (a b : string) :
  strings_ToLower (a ++ b) = (strings_ToLower a ++ strings_ToLower b)%string.
Proof. induction a as [|c a IH]; simpl; [done|by rewrite IH]. Qed.

Lemma HasPrefix_dot (rest : string) :
  strings_HasPrefix (String "."%char rest) "." = true.
Proof.
  unfold strings_HasPrefix. cbn [String.prefix].
  destruct (ascii_dec "."%char "."%char); [by destruct rest|done].
Qed.

Lemma normalizeExt_dot (rest : string) :
  normalizeExt (String "."%char rest) = String "."%char rest.
Proof. unfold normalizeExt. cbn [String.eqb]. by rewrite HasPrefix_dot. Qed.

Lemma normalizeExt_dotted (e : string) :
  normalizeExt e = ""%string
  \/ exists rest, normalizeExt e = String "."%char rest.
Proof.
  destruct e as [|c e]; [by left|]. right.
  destruct (ascii_dec c "."%char) as [->|Hne].
  - rewrite normalizeExt_dot. eauto.
  - unfold normalizeExt. cbn [String.eqb].
    unfold strings_HasPrefix. cbn [String.prefix].
    destruct (ascii_dec "."%char c) as [<-|_]; [done|]. simpl. eauto.
Qed.

Lemma canonical_ext_fixed (e : string) :
  canonical_ext (canonical_ext e) = canonical_ext e.
Proof.
  unfold canonical_ext.
  destruct (normalizeExt_dotted e) as [He|[rest He]]; rewrite He;
    [reflexivity|].
  cbn [strings_ToLower]. change (lower_ascii "."%char) with "."%char.
  rewrite normalizeExt_dot. cbn [strings_ToLower].
  change (lower_ascii "."%char) with "."%char.
  by rewrite ToLower_idem.
Qed.

Lemma ext_listed_canonical (exts : list string) (ext : string) :
  ext_listed (map canonical_ext exts) ext = ext_listed exts ext.
Proof.
  induction exts as [|e exts IH]; [done|]. cbn [map ext_listed].
  fold (canonical_ext (canonical_ext e)). fold (canonical_ext e).
  by rewrite canonical_ext_fixed, IH.
Qed.

(** An extension list of ASCII entries means the same with or without
    the leading dots of its entries and in whatever case they are
    written: [matchExtension] answers alike, for a path of ASCII bytes,
    when every entry is replaced by its dotted lower-case form, which
    [normalizeExt] and the comparison leave as it is. *)
Theorem extension_lists_canonical (f : FilterOptions) (path e : string) :
  Forall ascii_only (IncludeExts f) -> Forall ascii_only (ExcludeExts f) ->
  ascii_only path -> ascii_only e ->
  matchExtension (map_exts canonical_ext f) path = matchExtension f path
  /\ normalizeExt (normalizeExt e) = normalizeExt e
  /\ canonical_ext (canonical_ext e) = canonical_ext e.
Proof.
  intros _ _ _ _.
  split; [|split; [|apply canonical_ext_fixed]].
  - unfold matchExtension, map_exts. cbn [IncludeExts ExcludeExts].
    by rewrite !length_map, !ext_listed_canonical.
  - destruct (normalizeExt_dotted e) as [He|[rest He]]; rewrite He.
    + reflexivity.
    + apply normalizeExt_dot.
Qed.

Lemma ext_listed_app (l1 l2 : list string) (ext : string) :
  ext_listed (l1 ++ l2) ext = ext_listed l1 ext || ext_listed l2 ext.
Proof.
  induction l1 as [|e l1 IH]; [done|]. cbn [app ext_listed].
  by destruct (String.eqb _ ext).
Qed.

Lemma glob_listed_app (l1 l2 : list string) (p b : string) :
  glob_listed (l1 ++ l2) p b = glob_listed l1 p b || glob_listed l2 p b.
Proof.
  induction l1 as [|g l1 IH]; [done|]. cbn [app glob_listed].
  destruct (filepath_Match g p); [done|]. by destruct (filepath_Match g b).
Qed.

(** More entries on the deny-lists never let a path through that the
    filter rejected without them. *)
Theorem more_excludes_never_admit (f : FilterOptions)
    (exts globs : list string) (path : string) (size : Z) :
  Match (exclude_more exts globs f) path size = true ->
  Match f path size = true.
Proof.
  unfold Match, matchExtension, matchGlob, exclude_more.
  cbn [MaxSize MinSize IncludeExts ExcludeExts IncludeGlobs ExcludeGlobs].
  rewrite ext_listed_app, glob_listed_app.
  generalize (strings_ToLower (filepath_Ext path)),
    (filepath_ToSlash path), (filepath_Base path). intros ext full base.
  generalize (ext_listed (IncludeExts f) ext),
    (ext_listed (ExcludeExts f) ext), (ext_listed exts ext),
    (glob_listed (IncludeGlobs f) full base),
    (glob_listed (ExcludeGlobs f) full base), (glob_listed globs full base),
    ((0 <? MaxSize f) && (MaxSize f <? size)),
    ((0 <? MinSize f) && (size <? MinSize f)).
  intros ie ee ee' ig eg eg' above below.
  destruct (IncludeExts f), (ExcludeExts f), exts, (IncludeGlobs f),
    (ExcludeGlobs f), globs; cbn [app length Nat.ltb Nat.leb];
    destruct above, below, ie, ee, ee', ig, eg, eg'; done.
Qed.

Lemma more_excludes_never_admit_witness :
  Match (exclude_more [".log"%string] ["tmp_*"%string]
           (mkFilter 0 0 [] [".bak"%string] [] []))
        "notes.txt" 7 = true
  /\ Match (mkFilter 0 0 [] [".bak"%string] [] []) "notes.txt" 7 = true.
Proof.
  split; [reflexivity|].
  apply (more_excludes_never_admit _ [".log"%string] ["tmp_*"%string]).
  reflexivity.
Defined.

End FilterMore.

Lemma extension_lists_canonical_witness :
  scanner.matchExtension
    (map_exts canonical_ext
       (scanner.mkFilter 0 0 [".GO"; "txt"]%string ["Tmp"%string] [] []))
    "src/Main.Go"
  = scanner.matchExtension
      (scanner.mkFilter 0 0 [".GO"; "txt"]%string ["Tmp"%string] [] [])
      "src/Main.Go"
  /\ scanner.normalizeExt (scanner.normalizeExt "Go") = scanner.normalizeExt "Go"
  /\ canonical_ext (canonical_ext "Go") = canonical_ext "Go".
Proof.
  apply (extension_lists_canonical
           (scanner.mkFilter 0 0 [".GO"; "txt"]%string ["Tmp"%string] [] [])
           "src/Main.Go" "Go");
    unfold ascii_only; simpl; repeat constructor.
Defined.

(** ** The scanner: what a scan delivers *)

Section PoolMore.

Import scanner.

Variable s : Scanner.
Variable fs : FS.
Variable process : Scanner -> string -> IO (option Result).
Variable leave : Scanner -> Result -> Exit.

Lemma step_bounded (p p' : Pool) :
  step s fs process leave p p' ->
  (length (running p) <= Workers s)%nat
  /\ (length (results p) <= Workers s * 2)%nat ->
  (length (running p') <= Workers s)%nat
  /\ (length (results p') <= Workers s * 2)%nat.
Proof.
  intros Hstep. destruct Hstep; simpl;
    rewrite ?release_eq, ?length_app; simpl; rewrite ?length_app; simpl;
    lia.
Qed.

Lemma steps_bounded (paths : list string) (p : Pool) :
  steps s fs process leave (start paths) p ->
  (length (running p) <= Workers s)%nat
  /\ (length (results p) <= Workers s * 2)%nat.
Proof.
  intros Hsteps. unfold steps in Hsteps. revert p Hsteps.
  apply rtc_ind_r; [simpl; lia|].
  intros p p' _ Hstep IH. by apply (step_bounded p p').
Qed.

(** However the workers are scheduled, no more than [Workers] of them are
    ever in flight, the [results] channel never holds more than twice
    that many [Result]s, and the paths dispatched so far and those still
    to come are the paths of the list, in its order. *)
Theorem pool_is_bounded (paths : list string) (p : Pool) :
  steps s fs process leave (start paths) p ->
  (length (running p) <= Workers s)%nat
  /\ (length (results p) <= Workers s * 2)%nat
  /\ dispatched p ++ todo p = paths.
Proof.
  intros Hsteps.
  destruct (steps_invariant _ _ _ _ _ _ Hsteps) as (_ & Hdisp & _).
  destruct (steps_bounded _ _ Hsteps) as [Hrun Hres].
  done.
Qed.

(** With at least one worker a call can run to its end, and every call
    that does has dispatched every path and has delivered what the
    per-path function made of each, no [Result] lost, none twice, in
    some order. *)
Theorem pool_delivers_every_outcome (paths : list string) :
  (0 < Workers s)%nat ->
  (exists final,
     steps s fs process leave (start paths) final /\ finished final)
  /\ forall final,
       steps s fs process leave (start paths) final -> finished final ->
       dispatched final = paths
       /\ Permutation (received final)
            (flat_map (outcome s fs process) paths).
Proof.
  intros HW. split; [by apply run_exists|].
  intros final Hsteps Hfin.
  destruct (finished_stream _ _ _ _ _ _ Hsteps Hfin) as [Hdisp <-].
  destruct (steps_invariant _ _ _ _ _ _ Hsteps) as (Hperm & _ & _).
  done.
Qed.

End PoolMore.

Section ScannerMore.

Import hasher scanner examples.

(** In the middle of the scan of [big.bin] and [ok.txt] by four workers:
    both dispatched, [big.bin] dropped, the [Result] of [ok.txt] in the
    channel. *)
Lemma steps_big_then_ok :
  steps at_most_100 fs_two_files ScanFile after_send
        (start ["big.bin"%string; "ok.txt"%string])
        (mkPool [] [] [ok_result] [] false
                ["big.bin"%string; "ok.txt"%string]
                [OpStat "big.bin"; OpStat "ok.txt"; OpOpen "ok.txt";
                 OpRead "ok.txt"]).
Proof.
  unfold steps, start.
  eapply rtc_l; [apply step_dispatch; simpl; lia|].
  eapply rtc_l; [apply step_dispatch; simpl; lia|].
  eapply rtc_l; [apply (step_process_nil _ _ _ _ _ [OpStat "big.bin"]
                          _ [] [Processing "ok.txt"]); reflexivity|].
  eapply rtc_l; [apply (step_process_result _ _ _ _ _ ok_result
                          [OpStat "ok.txt"; OpOpen "ok.txt"; OpRead "ok.txt"]
                          _ [] []); vm_compute; reflexivity|].
  eapply rtc_l; [apply (step_send _ _ _ _ _ _ [] []); simpl; lia|].
  apply rtc_refl.
Qed.

Lemma pool_is_bounded_witness :
  (length ([] : list Worker) <= 4)%nat
  /\ (length [ok_result] <= 4 * 2)%nat
  /\ ["big.bin"%string; "ok.txt"%string] ++ []
     = ["big.bin"%string; "ok.txt"%string].
Proof.
  exact (pool_is_bounded at_most_100 fs_two_files ScanFile after_send
           _ _ steps_big_then_ok).
Defined.

Lemma pool_delivers_every_outcome_witness :
  dispatched only_ok_sent = ["big.bin"%string; "ok.txt"%string]
  /\ Permutation (received only_ok_sent)
       (flat_map (outcome at_most_100 fs_two_files ScanFile)
                 ["big.bin"%string; "ok.txt"%string]).
Proof.
  destruct (pool_delivers_every_outcome at_most_100 fs_two_files ScanFile
              after_send ["big.bin"%string; "ok.txt"%string])
    as [_ Hall]; [simpl; lia|].
  apply Hall; apply run_big_then_ok.
Defined.

Lemma processFile_result (s : Scanner) (fs : FS) (path : string) :
  exists r, fst (processFile s path fs) = Some r.
Proof.
  rewrite processFile_cases.
  destruct (fs_Stat fs path) as [info|err]; [|by eexists].
  unfold hashed. destruct (fs_Open fs path); by eexists.
Qed.

(** The second phase of [ScanDir] delivers exactly one [Result] for every
    file the walk collected, whatever the error policy: [processFile]
    never returns nil. *)
Theorem ScanDir_one_Result_per_file (s : Scanner) (fs : FS)
    (files : list string) (final : Pool) :
  ScanDir_run s fs files final ->
  length (received final) = length files
  /\ Permutation (received final)
       (flat_map (outcome s fs processFile) files)
  /\ forall path, exists r, fst (processFile s path fs) = Some r.
Proof.
  intros [Hsteps Hfin].
  destruct (finished_stream _ _ _ _ _ _ Hsteps Hfin) as [_ Hrecv].
  destruct (steps_invariant _ _ _ _ _ _ Hsteps) as (Hperm & _ & _).
  rewrite Hrecv in Hperm. split; [|split; [done|]].
  - rewrite (Permutation_length Hperm).
    clear. induction files as [|p files IH]; [done|]. simpl.
    rewrite length_app, IH. unfold outcome.
    destruct (processFile_result s fs p) as [r ->]. done.
  - apply processFile_result.
Qed.

(** [ScanDir] over the one collected file [ok.txt]. *)
Lemma run_dir_ok :
  ScanDir_run at_most_100 fs_two_files ["ok.txt"%string]
    (mkPool [] [] [] [ok_result] true ["ok.txt"%string]
            [OpStat "ok.txt"; OpOpen "ok.txt"; OpRead "ok.txt"]).
Proof.
  split; [|done]. unfold steps, start.
  eapply rtc_l; [apply step_dispatch; simpl; lia|].
  eapply rtc_l; [apply (step_process_result _ _ _ _ _ ok_result
                          [OpStat "ok.txt"; OpOpen "ok.txt"; OpRead "ok.txt"]
                          _ [] []); vm_compute; reflexivity|].
  eapply rtc_l; [apply (step_send _ _ _ _ _ _ [] []); simpl; lia|].
  eapply rtc_l; [apply step_receive|].
  eapply rtc_l; [apply step_close|].
  apply rtc_refl.
Qed.

Lemma ScanDir_one_Result_per_file_witness :
  length [ok_result] = length ["ok.txt"%string].
Proof.
  exact (proj1 (ScanDir_one_Result_per_file at_most_100 fs_two_files
                  ["ok.txt"%string] _ run_dir_ok)).
Defined.

(** A [Result] of [ScanFile] without an error is the [Result] of a file
    that was stat'ed as a non-directory, passed the filter, was opened
    and read to its end: it carries the size the stat reported, the path
    given or its absolute form, and a digest under the name of every
    hasher of the scanner, of which there is at least one. *)
Theorem ScanFile_success (s : Scanner) (fs : FS) (path : string)
    (r : Result) :
  fst (ScanFile s path fs) = Some r -> Error r = None ->
  exists info f hashes,
    fs_Stat fs path = inl info /\ IsDir info = false
    /\ filtered_out s path (info_Size info) = false
    /\ fs_Open fs path = inl f /\ read_error f = None
    /\ Hashers s <> []
    /\ snd (ScanFile s path fs) = [OpStat path; OpOpen path; OpRead path]
    /\ Size r = info_Size info
    /\ Path r = output_path s fs path
    /\ Hashes r = Some hashes
    /\ HashReader f (Hashers s) = Ok hashes
    /\ dom hashes = list_to_set (map Name (Hashers s)).
Proof.
  rewrite ScanFile_cases.
  destruct (fs_Stat fs path) as [info|err]; [|by intros [= <-]].
  destruct (IsDir info) eqn:Hdir; [by intros [= <-]|].
  destruct (filtered_out s path (info_Size info)) eqn:Hf; [done|].
  unfold hashed. destruct (fs_Open fs path) as [f|err] eqn:Hopen;
    [|by intros [= <-]].
  cbn [fst snd].
  pose proof (HashReader_cases f (Hashers s)) as Hcases.
  destruct (HashReader f (Hashers s)) as [hashes|e] eqn:Hhr;
    [|by intros [= <-]].
  destruct Hcases as (Hne & Herr & Hdom).
  intros [= <-] _. exists info, f, hashes.
  repeat (split; [done|]).
  split; [|done].
  by destruct (Hashers s).
Qed.

Lemma ScanFile_success_witness :
  exists info f hashes,
    fs_Stat fs_two_files "ok.txt" = inl info /\ IsDir info = false
    /\ filtered_out at_most_100 "ok.txt" (info_Size info) = false
    /\ fs_Open fs_two_files "ok.txt" = inl f /\ read_error f = None
    /\ Hashers at_most_100 <> []
    /\ snd (ScanFile at_most_100 "ok.txt" fs_two_files)
       = [OpStat "ok.txt"; OpOpen "ok.txt"; OpRead "ok.txt"]
    /\ Size ok_result = info_Size info
    /\ Path ok_result = output_path at_most_100 fs_two_files "ok.txt"
    /\ Hashes ok_result = Some hashes
    /\ HashReader f (Hashers at_most_100) = Ok hashes
    /\ dom hashes = list_to_set (map Name (Hashers at_most_100)).
Proof.
  apply (ScanFile_success at_most_100 fs_two_files "ok.txt" ok_result).
  - vm_compute. reflexivity.
  - reflexivity.
Defined.

(** One visit of the walk of [ScanDir]: the callback leaves the list of
    files as it is or appends the path visited, and it appends exactly
    when the entry came without error, is no directory, has its info and
    passes the filter with the size the walk reports. It sends a
    [Result] only for an error under [SkipOnError], and then collects
    nothing; it returns an error only under [FailOnError]; it asks to
    skip exactly a directory other than the root when the scan is not
    recursive. *)
Theorem walkFn_visit (s : Scanner) (dir path : string) (d : DirEntry)
    (err : option string) (files : list string) :
  let '(ret, files', sent) := walkFn s dir path d err files in
  (files' = files \/ files' = files ++ [path])
  /\ (files' = files ++ [path]
      <-> err = None /\ d_IsDir d = false
          /\ exists info, d_Info d = inl info
                          /\ filtered_out s path (info_Size info) = false)
  /\ (sent <> [] -> OnError s = SkipOnError /\ files' = files
                    /\ exists e, sent = [mkResult path 0 None (Some e)])
  /\ (forall e, ret = WalkErr e -> OnError s = FailOnError /\ sent = [])
  /\ (ret = WalkSkipDir
      <-> err = None /\ d_IsDir d = true /\ Recursive s = false
          /\ path <> dir).
Proof.
  assert (Hgrow : files <> files ++ [path]).
  { intros H. apply (f_equal length) in H. rewrite length_app in H.
    simpl in H. lia. }
  assert (Hgrow' : files ++ [path] <> files) by congruence.
  unfold walkFn.
  destruct err as [e|].
  { destruct (decide (OnError s = FailOnError)) as [Hp|Hp];
      [|assert (OnError s = SkipOnError) by (by destruct (OnError s))];
      split_and!; naive_solver. }
  destruct (d_IsDir d) eqn:Hd.
  { destruct (Recursive s) eqn:Hr; cbn [negb andb];
      [|destruct (String.eqb_spec path dir) as [->|Hne]; cbn [negb]];
      split_and!; naive_solver. }
  destruct (d_Info d) as [info|e] eqn:Hi.
  - destruct (filtered_out s path (info_Size info)) eqn:Hf; split_and!;
      try done; try (by left); try (by right).
    + split; [done|]. intros (_ & _ & info' & [= <-] & Hf'). congruence.
    + split; [done|]. by intros (_ & ? & _).
    + split; [eauto|done].
    + split; [done|]. by intros (_ & ? & _).
  - destruct (decide (OnError s = FailOnError)) as [Hp|Hp];
      [|assert (OnError s = SkipOnError) by (by destruct (OnError s))];
      split_and!; naive_solver.
Qed.

End ScannerMore.

(** * The command line, the list of paths and the text output *)

Section StringsMore.

Lemma trim_left_idem (s : string) : trim_left (trim_left s) = trim_left s.
Proof.
  induction s as [|c s IH]; simpl; [done|].
  destruct (is_space c) eqn:Hc; [done|]. simpl. by rewrite Hc.
Qed.

Lemma trim_right_idem (s : string) : trim_right (trim_right s) = trim_right s.
Proof.
  induction s as [|c s IH]; simpl; [done|].
  destruct (trim_right s) as [|a t] eqn:Ht.
  - destruct (is_space c) eqn:Hc; simpl; [done|by rewrite Hc].
  - cbn [trim_right] in *. by rewrite IH.
Qed.

Lemma trim_left_right (s : string) :
  trim_left (trim_right (trim_left s)) = trim_right (trim_left s).
Proof.
  induction s as [|c s IH]; simpl; [done|].
  destruct (is_space c) eqn:Hc; [done|].
  cbn [trim_right]. destruct (trim_right s); [rewrite Hc|]; simpl;
    by rewrite Hc.
Qed.

Lemma TrimSpace_idem (s : string) :
  strings_TrimSpace (strings_TrimSpace s) = strings_TrimSpace s.
Proof.
  unfold strings_TrimSpace. by rewrite trim_left_right, trim_right_idem.
Qed.

Lemma is_space_upper (c : ascii) : is_space (upper_ascii c) = is_space c.
Proof. destruct c as [[] [] [] [] [] [] [] []]; reflexivity. Qed.

Lemma upper_ascii_idem (c : ascii) :
  upper_ascii (upper_ascii c) = upper_ascii c.
Proof. destruct c as [[] [] [] [] [] [] [] []]; reflexivity. Qed.

Lemma upper_lower_ascii (c : ascii) :
  upper_ascii (lower_ascii c) = upper_ascii c.
Proof. destruct c as [[] [] [] [] [] [] [] []]; reflexivity. Qed.

Lemma ToUpper_idem (s : string) :
  strings_ToUpper (strings_ToUpper s) = strings_ToUpper s.
Proof.
  induction s as [|c s IH]; simpl; [done|].
  by rewrite upper_ascii_idem, IH.
Qed.

Lemma ToUpper_ToLower (s : string) :
  strings_ToUpper (strings_ToLower s) = strings_ToUpper s.
Proof.
  induction s as [|c s IH]; simpl; [done|].
  by rewrite upper_lower_ascii, IH.
Qed.

Lemma trim_left_upper (s : string) :
  trim_left (strings_ToUpper s) = strings_ToUpper (trim_left s).
Proof.
  induction s as [|c s IH]; simpl; [done|].
  rewrite is_space_upper. by destruct (is_space c).
Qed.

Lemma trim_right_upper (s : string) :
  trim_right (strings_ToUpper s) = strings_ToUpper (trim_right s).
Proof.
  induction s as [|c s IH]; simpl; [done|].
  rewrite IH, is_space_upper.
  destruct (trim_right s); simpl; [by destruct (is_space c)|done].
Qed.

Lemma TrimSpace_upper (s : string) :
  strings_TrimSpace (strings_ToUpper s)
  = strings_ToUpper (strings_TrimSpace s).
Proof.
  unfold strings_TrimSpace. by rewrite trim_left_upper, trim_right_upper.
Qed.

Lemma list_ascii_app (a b : string) :
  list_ascii_of_string (a ++ b)
  = list_ascii_of_string a ++ list_ascii_of_string b.
Proof. induction a as [|c a IH]; simpl; [done|]. by rewrite IH. Qed.

Lemma string_of_list_app (l k : list ascii) :
  string_of_list_ascii (l ++ k)
  = (string_of_list_ascii l ++ string_of_list_ascii k)%string.
Proof. induction l as [|c l IH]; simpl; [done|]. by rewrite IH. Qed.

Lemma append_empty_r (s : string) : (s ++ "")%string = s.
Proof.
  induction s as [|c s IH]; [done|].
  change (String c (s ++ "")%string = String c s). by rewrite IH.
Qed.

Lemma ToUpper_append (a b : string) :
  strings_ToUpper (a ++ b) = (strings_ToUpper a ++ strings_ToUpper b)%string.
Proof. induction a as [|c a IH]; simpl; [done|]. by rewrite IH. Qed.

Lemma is_digit_upper (c : ascii) : is_digit c = true -> upper_ascii c = c.
Proof. destruct c as [[] [] [] [] [] [] [] []]; done. Qed.

Lemma is_digit_space (c : ascii) : is_digit c = true -> is_space c = false.
Proof. destruct c as [[] [] [] [] [] [] [] []]; done. Qed.

Lemma ToUpper_digits (d : string) : digits d -> strings_ToUpper d = d.
Proof.
  unfold digits. induction d as [|c d IH]; simpl; [done|].
  intros [Hc Hd]%Forall_cons. by rewrite is_digit_upper, IH.
Qed.

Lemma trim_right_no_space (s : string) :
  Forall (fun c => is_space c = false) (list_ascii_of_string s) ->
  trim_right s = s.
Proof.
  induction s as [|c s IH]; simpl; [done|].
  intros [Hc Hs]%Forall_cons. rewrite (IH Hs), Hc. by destruct s.
Qed.

Lemma TrimSpace_no_space (s : string) :
  Forall (fun c => is_space c = false) (list_ascii_of_string s) ->
  strings_TrimSpace s = s.
Proof.
  intros Hs. unfold strings_TrimSpace.
  assert (trim_left s = s) as ->; [|by apply trim_right_no_space].
  destruct s as [|c s]; simpl; [done|].
  apply Forall_cons in Hs as [-> _]. done.
Qed.

Lemma HasSuffix_digits (d u x : string) :
  digits d ->
  Forall (fun c => is_digit c = false) (list_ascii_of_string x) ->
  strings_HasSuffix (d ++ u) x = strings_HasSuffix u x.
Proof.
  unfold digits, strings_HasSuffix. intros Hd Hx.
  rewrite list_ascii_app, length_app.
  set (ld := list_ascii_of_string d) in *.
  set (lu := list_ascii_of_string u). set (lx := list_ascii_of_string x) in *.
  destruct (Nat.leb_spec (length lx) (length lu)) as [Hle|Hgt].
  - replace (length lx <=? length ld + length lu)%nat with true
      by (symmetry; apply Nat.leb_le; lia).
    simpl. f_equal.
    replace (length ld + length lu - length lx)%nat
      with (length ld + (length lu - length lx))%nat by lia.
    by rewrite drop_app_add'.
  - rewrite andb_false_iff. right. apply bool_decide_eq_false. intros Heq.
    destruct (decide (length ld + length lu < length lx)%nat) as [Hlt|Hge].
    + apply (f_equal length) in Heq.
      rewrite length_drop, length_app in Heq. lia.
    + rewrite drop_app_le in Heq by lia.
      destruct (drop (length ld + length lu - length lx) ld) as [|c t] eqn:Ht.
      { apply (f_equal length) in Ht. rewrite length_drop in Ht.
        simpl in Ht. lia. }
      assert (c ∈ ld) as Hc.
      { rewrite <- (take_drop (length ld + length lu - length lx) ld), Ht.
        apply elem_of_app. right. left. }
      rewrite <- Heq in Hx. apply Forall_cons in Hx as [Hx _].
      rewrite Forall_forall in Hd. specialize (Hd c Hc). congruence.
Qed.

Lemma HasSuffix_length (u x : string) :
  strings_HasSuffix u x = true ->
  (length (list_ascii_of_string x) <= length (list_ascii_of_string u))%nat.
Proof.
  unfold strings_HasSuffix. intros [H _]%andb_true_iff.
  by apply Nat.leb_le.
Qed.

Lemma TrimSuffix_digits (d u x : string) :
  digits d ->
  Forall (fun c => is_digit c = false) (list_ascii_of_string x) ->
  strings_TrimSuffix (d ++ u) x = (d ++ strings_TrimSuffix u x)%string.
Proof.
  intros Hd Hx. unfold strings_TrimSuffix.
  rewrite (HasSuffix_digits _ _ _ Hd Hx).
  destruct (strings_HasSuffix u x) eqn:Hs; [|done].
  apply HasSuffix_length in Hs.
  rewrite list_ascii_app, length_app.
  rewrite take_app, string_of_list_app.
  rewrite take_ge by lia. rewrite string_of_list_ascii_of_string.
  do 3 f_equal. lia.
Qed.

End StringsMore.

Section CliMore.

Import hasher cli.

Variable Sscanf_d : string -> option Z.

Lemma size_unit_digits (d u : string) :
  digits d ->
  size_unit (d ++ u) = (fst (size_unit u), (d ++ snd (size_unit u))%string).
Proof.
  intros Hd. unfold size_unit.
  rewrite !(HasSuffix_digits d u _ Hd) by repeat constructor.
  repeat (destruct (strings_HasSuffix u _); simpl;
          [by rewrite !TrimSuffix_digits
             by first [exact Hd | repeat constructor]|]).
  done.
Qed.

Lemma parseSize_unit (d u : string) (m v : Z) :
  d <> ""%string -> digits d -> Sscanf_d d = Some v ->
  Forall (fun c => is_space c = false)
         (list_ascii_of_string (strings_ToUpper u)) ->
  size_unit (strings_ToUpper u) = (m, ""%string) ->
  parseSize Sscanf_d (d ++ u) = Ok (int64 (v * m)).
Proof.
  intros Hne Hd Hv Hu Hunit. unfold parseSize.
  rewrite ToUpper_append, (ToUpper_digits d Hd).
  rewrite TrimSpace_no_space.
  2:{ rewrite list_ascii_app. apply Forall_app. split; [|done].
      eapply Forall_impl; [exact Hd|]. apply is_digit_space. }
  destruct (String.eqb_spec (d ++ strings_ToUpper u) "") as [He|_].
  { destruct d; [done|discriminate He]. }
  rewrite (size_unit_digits _ _ Hd), Hunit. simpl.
  by rewrite append_empty_r, Hv.
Qed.

(** A size written in ASCII bytes is read without regard to the case of
    its letters and to the white space around it. *)
Theorem parseSize_insensitive (s : string) :
  ascii_only s ->
  parseSize Sscanf_d (strings_ToUpper s) = parseSize Sscanf_d s
  /\ parseSize Sscanf_d (strings_ToLower s) = parseSize Sscanf_d s
  /\ parseSize Sscanf_d (strings_TrimSpace s) = parseSize Sscanf_d s.
Proof.
  intros _. unfold parseSize.
  rewrite ToUpper_idem, ToUpper_ToLower.
  by rewrite (TrimSpace_upper (strings_TrimSpace s)), TrimSpace_idem,
       <- TrimSpace_upper.
Qed.

(** The units of a size: a decimal number [d] that reads as [v], followed
    by nothing or [B], is [v] bytes; followed by [K], [M], [G] or [T],
    with or without a [B] and in either case, it is [v] times the power
    of 1024 of the unit, as an [int64]. *)
Theorem parseSize_units (d : string) (v : Z) :
  d <> ""%string -> digits d -> Sscanf_d d = Some v ->
  Forall (fun um => parseSize Sscanf_d (d ++ fst um) = Ok (int64 (v * snd um)))
    [(""%string, 1); ("B"%string, 1); ("b"%string, 1);
     ("K"%string, 2 ^ 10); ("KB"%string, 2 ^ 10);
     ("k"%string, 2 ^ 10); ("kb"%string, 2 ^ 10);
     ("M"%string, 2 ^ 20); ("MB"%string, 2 ^ 20);
     ("m"%string, 2 ^ 20); ("mb"%string, 2 ^ 20);
     ("G"%string, 2 ^ 30); ("GB"%string, 2 ^ 30);
     ("g"%string, 2 ^ 30); ("gb"%string, 2 ^ 30);
     ("T"%string, 2 ^ 40); ("TB"%string, 2 ^ 40);
     ("t"%string, 2 ^ 40); ("tb"%string, 2 ^ 40)].
Proof.
  intros Hne Hd Hv.
  repeat (apply Forall_cons; split;
          [apply parseSize_unit;
           [done|done|done|repeat constructor|vm_compute; reflexivity]|]).
  apply Forall_nil. done.
Qed.

Lemma splitAndTrim_loop_spec (parts : list string) :
  forall result,
  splitAndTrim_loop parts result
  = result ++ filter (fun p => p <> ""%string) (map strings_TrimSpace parts).
Proof.
  induction parts as [|p parts IH]; intros result; simpl.
  { by rewrite app_nil_r. }
  rewrite filter_cons.
  destruct (String.eqb_spec (strings_TrimSpace p) "") as [He|Hne]; simpl.
  - rewrite IH. by rewrite decide_False by (by intros ?).
  - rewrite IH, decide_True by done. by rewrite <- app_assoc.
Qed.

Lemma splitAndTrim_clean (s : string) :
  Forall (fun p => p <> ""%string /\ strings_TrimSpace p = p)
         (splitAndTrim s).
Proof.
  unfold splitAndTrim. rewrite splitAndTrim_loop_spec. simpl.
  apply Forall_forall. intros p [Hne Hin]%list_elem_of_filter.
  split; [done|].
  apply list_elem_of_In, in_map_iff in Hin as (q & <- & _).
  apply TrimSpace_idem.
Qed.

Lemma list_flag_clean (flag : string) :
  Forall (fun p => p <> ""%string /\ strings_TrimSpace p = p)
         (list_flag flag).
Proof.
  unfold list_flag. destruct (negb _); [apply splitAndTrim_clean|done].
Qed.

Lemma list_flag_blank (flag : string) :
  Forall (fun p => strings_TrimSpace p = ""%string) (strings_Split flag ",") ->
  list_flag flag = [].
Proof.
  intros Hb. unfold list_flag. destruct (negb _); [|done].
  unfold splitAndTrim. rewrite splitAndTrim_loop_spec. simpl.
  induction Hb as [|p parts Hp _ IH]; simpl; [done|].
  rewrite filter_cons. by rewrite decide_False by (by intros ?).
Qed.

Lemma size_flag_blank (what flag : string) :
  strings_TrimSpace flag = ""%string ->
  size_flag Sscanf_d what flag = Ok 0.
Proof.
  intros Hb. unfold size_flag. destruct (negb _); [|done].
  unfold parseSize. by rewrite TrimSpace_upper, Hb.
Qed.

(** Flags that hold nothing but white space and commas filter nothing:
    the options are accepted and every file matches them. *)
Theorem blank_flags_filter_nothing (cfg : Config) :
  strings_TrimSpace (cfg_MaxSize cfg) = ""%string ->
  strings_TrimSpace (cfg_MinSize cfg) = ""%string ->
  Forall (fun flag =>
            Forall (fun p => strings_TrimSpace p = ""%string)
                   (strings_Split flag ","))
         [cfg_IncludeExt cfg; cfg_ExcludeExt cfg;
          cfg_Include cfg; cfg_Exclude cfg] ->
  exists f,
    parseFilterOptions Sscanf_d cfg = Ok f
    /\ forall path size, scanner.Match f path size = true.
Proof.
  intros Hmax Hmin Hlists.
  apply Forall_cons in Hlists as [H1 Hlists].
  apply Forall_cons in Hlists as [H2 Hlists].
  apply Forall_cons in Hlists as [H3 Hlists].
  apply Forall_cons in Hlists as [H4 _].
  unfold parseFilterOptions.
  rewrite !size_flag_blank by done.
  rewrite !list_flag_blank by done.
  eexists. split; [done|]. done.
Qed.

(** The lists of the options read from flags of ASCII bytes hold no
    empty entry and no entry with white space around it. *)
Theorem parseFilterOptions_entries (cfg : Config) (f : scanner.FilterOptions) :
  Forall ascii_only
         [cfg_MaxSize cfg; cfg_MinSize cfg; cfg_IncludeExt cfg;
          cfg_ExcludeExt cfg; cfg_Include cfg; cfg_Exclude cfg] ->
  parseFilterOptions Sscanf_d cfg = Ok f ->
  Forall (fun p => p <> ""%string /\ strings_TrimSpace p = p)
         (scanner.IncludeExts f ++ scanner.ExcludeExts f
          ++ scanner.IncludeGlobs f ++ scanner.ExcludeGlobs f).
Proof.
  intros _. unfold parseFilterOptions.
  destruct (size_flag _ _ _); [|done]. destruct (size_flag _ _ _); [|done].
  intros [= <-]. simpl. rewrite !Forall_app.
  split_and!; apply list_flag_clean.
Qed.

End CliMore.

Lemma parseSize_units_witness :
  Forall (fun um =>
            cli.parseSize (fun s => if String.eqb s "10" then Some 10 else None)
                          ("10" ++ fst um)
            = hasher.Ok (cli.int64 (10 * snd um)))
    [(""%string, 1); ("B"%string, 1); ("b"%string, 1);
     ("K"%string, 2 ^ 10); ("KB"%string, 2 ^ 10);
     ("k"%string, 2 ^ 10); ("kb"%string, 2 ^ 10);
     ("M"%string, 2 ^ 20); ("MB"%string, 2 ^ 20);
     ("m"%string, 2 ^ 20); ("mb"%string, 2 ^ 20);
     ("G"%string, 2 ^ 30); ("GB"%string, 2 ^ 30);
     ("g"%string, 2 ^ 30); ("gb"%string, 2 ^ 30);
     ("T"%string, 2 ^ 40); ("TB"%string, 2 ^ 40);
     ("t"%string, 2 ^ 40); ("tb"%string, 2 ^ 40)].
Proof.
  apply (parseSize_units
           (fun s => if String.eqb s "10" then Some 10 else None) "10" 10).
  - discriminate.
  - repeat constructor.
  - reflexivity.
Defined.

Lemma blank_flags_filter_nothing_witness :
  exists f,
    cli.parseFilterOptions (fun _ => None)
      (cli.mkConfig " " "" " , ," "," "" "  ") = hasher.Ok f
    /\ forall path size, scanner.Match f path size = true.
Proof.
  apply (blank_flags_filter_nothing (fun _ => None)
           (cli.mkConfig " " "" " , ," "," "" "  "));
    [reflexivity|reflexivity|repeat constructor].
Defined.

Lemma parseFilterOptions_entries_witness :
  Forall (fun p => p <> ""%string /\ strings_TrimSpace p = p)
         ([".go"%string; "txt"%string] ++ [] ++ []
          ++ ["vendor/*"%string; "*.tmp"%string]).
Proof.
  apply (parseFilterOptions_entries
           (fun s => if String.eqb s "10" then Some 10 else None)
           (cli.mkConfig "10k" "" " .go, ,txt" "" "" "vendor/* ,*.tmp")
           (scanner.mkFilter 10240 0 [".go"; "txt"] [] []
                             ["vendor/*"; "*.tmp"])%string).
  - unfold ascii_only. simpl. repeat constructor.
  - vm_compute. reflexivity.
Defined.

Lemma parseSize_insensitive_witness :
  cli.parseSize (fun s => if String.eqb s "10" then Some 10 else None)
                (strings_ToUpper " 10kB ")
  = cli.parseSize (fun s => if String.eqb s "10" then Some 10 else None)
                  " 10kB "
  /\ cli.parseSize (fun s => if String.eqb s "10" then Some 10 else None)
                   (strings_ToLower " 10kB ")
     = cli.parseSize (fun s => if String.eqb s "10" then Some 10 else None)
                     " 10kB "
  /\ cli.parseSize (fun s => if String.eqb s "10" then Some 10 else None)
                   (strings_TrimSpace " 10kB ")
     = cli.parseSize (fun s => if String.eqb s "10" then Some 10 else None)
                     " 10kB ".
Proof.
  apply (parseSize_insensitive
           (fun s => if String.eqb s "10" then Some 10 else None) " 10kB ").
  unfold ascii_only. simpl. repeat constructor.
Defined.

Section PathsMore.

Import hasher scanner.

Lemma path_lines_spec (lines : list string) :
  forall paths,
  path_lines lines paths
  = paths ++ filter (fun l => l <> ""%string /\ strings_HasPrefix l "#" = false)
                    (map strings_TrimSpace lines).
Proof.
  induction lines as [|text lines IH]; intros paths; simpl.
  { by rewrite app_nil_r. }
  rewrite filter_cons, !IH.
  destruct (String.eqb_spec (strings_TrimSpace text) "") as [He|Hne]; simpl.
  { by rewrite decide_False by (by intros [? _]). }
  destruct (strings_HasPrefix (strings_TrimSpace text) "#") eqn:Hp; simpl.
  { by rewrite decide_False by (by intros [_ ?]). }
  rewrite decide_True by done. by rewrite <- app_assoc.
Qed.

Lemma trim_right_snoc_space (s : string) (c : ascii) :
  is_space c = true -> trim_right (s ++ String c "") = trim_right s.
Proof.
  intros Hc. induction s as [|a s IH].
  - change (("" ++ String c "")%string) with (String c ""). cbn.
    by rewrite Hc.
  - change ((String a s ++ String c "")%string)
      with (String a (s ++ String c "")%string).
    cbn [trim_right]. by rewrite IH.
Qed.

Lemma TrimSpace_snoc_space (s : string) (c : ascii) :
  is_space c = true ->
  strings_TrimSpace (s ++ String c "") = strings_TrimSpace s.
Proof.
  intros Hc. unfold strings_TrimSpace. induction s as [|a s IH].
  - change (("" ++ String c "")%string) with (String c ""). cbn.
    by rewrite Hc.
  - change ((String a s ++ String c "")%string)
      with (String a (s ++ String c "")%string).
    cbn [trim_left]. destruct (is_space a); [done|].
    by apply (trim_right_snoc_space (String a s)).
Qed.

Lemma take_last (l : list ascii) (d : ascii) :
  (0 < length l)%nat ->
  l = take (length l - 1) l ++ [nth (length l - 1) l d].
Proof.
  destruct l as [|a l] using rev_ind; [simpl; lia|]. intros _.
  rewrite length_app. simpl.
  replace (length l + 1 - 1)%nat with (length l) by lia.
  by rewrite take_app_length, nth_middle.
Qed.

Lemma TrimSpace_dropCR (data : string) :
  strings_TrimSpace (dropCR data) = strings_TrimSpace data.
Proof.
  unfold dropCR.
  destruct (_ && _) eqn:Hcr; [|done].
  apply andb_true_iff in Hcr as [Hlen Hcr].
  apply Nat.ltb_lt in Hlen. apply Ascii.eqb_eq in Hcr.
  pose proof (string_of_list_ascii_of_string data) as Hdata.
  set (l := list_ascii_of_string data) in *.
  transitivity
    (strings_TrimSpace
       (string_of_list_ascii (take (length l - 1) l ++ ["013"%char]))).
  - rewrite string_of_list_app. simpl. by rewrite TrimSpace_snoc_space.
  - rewrite <- Hcr, <- (take_last l Ascii.zero Hlen). by rewrite Hdata.
Qed.

(** The lines [Scan] delivers are, up to the white space around them
    and the empty lines, the pieces of the input that come before the
    first one too long for the buffer. *)
Lemma scan_lines_spec (pieces : list string) :
  exists lines rest,
    pieces = lines ++ rest
    /\ Forall (fun l => Z.of_nat (String.length l) < MaxScanTokenSize) lines
    /\ match rest with
       | [] => True
       | l :: _ => MaxScanTokenSize <= Z.of_nat (String.length l)
       end
    /\ filter (fun l => l <> ""%string /\ strings_HasPrefix l "#" = false)
              (map strings_TrimSpace (scan_lines pieces))
       = filter (fun l => l <> ""%string /\ strings_HasPrefix l "#" = false)
                (map strings_TrimSpace lines).
Proof.
  induction pieces as [|piece pieces IH].
  { exists [], []. by repeat split. }
  cbn [scan_lines].
  destruct (Z.leb_spec MaxScanTokenSize (Z.of_nat (String.length piece)))
    as [Hlong|Hshort].
  { exists [], (piece :: pieces). by repeat split. }
  destruct pieces as [|piece' pieces].
  { exists [piece], []. split; [done|]. split; [by constructor|].
    split; [done|].
    destruct (String.eqb_spec piece "") as [->|Hne]; [|].
    - reflexivity.
    - cbn [map]. by rewrite TrimSpace_dropCR. }
  destruct IH as (lines & rest & Heq & Hshorts & Hrest & Hfilter).
  exists (piece :: lines), rest. split; [by rewrite Heq|].
  split; [by constructor|]. split; [done|].
  cbn [map]. rewrite TrimSpace_dropCR, !filter_cons.
  by rewrite Hfilter.
Qed.

(** [ScanFromReader] scans the lines of its input that are neither blank
    nor comments, as far as its line reader gets: for an input of ASCII
    bytes, [lines] being the lines before the first one of
    [MaxScanTokenSize] bytes or more, a scan that has come to its end has
    dispatched, in the order of the input, exactly the trimmed [lines]
    that are not empty and do not start with [#], and has delivered what
    [ScanFile] made of each of them. Nothing of the input from a line too
    long for the reader on is scanned. *)
Theorem ScanFromReader_paths (s : Scanner) (fs : FS) (input : string)
    (final : Pool) :
  ascii_only input ->
  ScanFromReader_run s fs input final ->
  exists lines rest,
    strings_Split input "010"%char = lines ++ rest
    /\ Forall (fun l => Z.of_nat (String.length l) < MaxScanTokenSize) lines
    /\ match rest with
       | [] => True
       | l :: _ => MaxScanTokenSize <= Z.of_nat (String.length l)
       end
    /\ dispatched final
       = filter (fun l => l <> ""%string /\ strings_HasPrefix l "#" = false)
                (map strings_TrimSpace lines)
    /\ Permutation (received final)
         (flat_map (outcome s fs ScanFile) (dispatched final))
    /\ Forall (fun p => strings_TrimSpace p = p) (dispatched final).
Proof.
  intros _ [Hsteps Hfin].
  destruct (finished_stream _ _ _ _ _ _ Hsteps Hfin) as [Hdisp Hstream].
  destruct (steps_invariant _ _ _ _ _ _ Hsteps) as (Hperm & _ & _).
  destruct (scan_lines_spec (strings_Split input "010"%char))
    as (lines & rest & Heq & Hshort & Hrest & Hfilter).
  exists lines, rest. split; [done|]. split; [done|]. split; [done|].
  rewrite Hdisp, <- Hstream, path_lines_spec. cbn [app].
  unfold Scanner_lines. rewrite Hfilter.
  split; [done|]. split.
  - rewrite <- Hfilter. by rewrite path_lines_spec in Hperm.
  - apply Forall_forall. intros p [_ Hin]%list_elem_of_filter.
    apply list_elem_of_In, in_map_iff in Hin as (q & <- & _).
    apply TrimSpace_idem.
Qed.

End PathsMore.

Lemma ScanFromReader_paths_witness :
  exists lines rest,
    strings_Split
      (String.concat (String "010"%char "")
         ["# two files"; " big.bin" ++ String "013"%char ""; "";
          "ok.txt  "; "  #"])%string
      "010"%char = lines ++ rest
    /\ Forall (fun l => Z.of_nat (String.length l) < MaxScanTokenSize) lines
    /\ match rest with
       | [] => True
       | l :: _ => MaxScanTokenSize <= Z.of_nat (String.length l)
       end
    /\ scanner.dispatched examples.only_ok_sent
       = filter (fun l => l <> ""%string /\ strings_HasPrefix l "#" = false)
                (map strings_TrimSpace lines)
    /\ Permutation (scanner.received examples.only_ok_sent)
         (flat_map (outcome examples.at_most_100 examples.fs_two_files
                            scanner.ScanFile)
                   (scanner.dispatched examples.only_ok_sent))
    /\ Forall (fun p => strings_TrimSpace p = p)
              (scanner.dispatched examples.only_ok_sent).
Proof.
  apply (ScanFromReader_paths examples.at_most_100 examples.fs_two_files
           (String.concat (String "010"%char "")
              ["# two files"; " big.bin" ++ String "013"%char ""; "";
               "ok.txt  "; "  #"])%string
           examples.only_ok_sent).
  - unfold ascii_only. vm_compute. repeat constructor.
  - exact run_big_then_ok.
Defined.

Section OutputMore.

Import scanner output.

Lemma leb_lt_or_eq (a b : string) :
  Is_true (String.leb a b)
  <-> OrderedTypeEx.String_as_OT.lt a b \/ a = b.
Proof.
  unfold String.leb.
  destruct (String.compare a b) eqn:E; simpl.
  - apply String.compare_eq_iff in E. tauto.
  - apply OrderedTypeEx.String_as_OT.cmp_lt in E. tauto.
  - split; [done|]. intros [H| ->].
    + apply OrderedTypeEx.String_as_OT.cmp_lt in H.
      unfold OrderedTypeEx.String_as_OT.cmp in H. congruence.
    + pose proof (String.compare_antisym b b) as Ha.
      rewrite E in Ha. discriminate.
Qed.

#[local] Instance string_leb_total :
  Total (fun a b => Is_true (String.leb a b)).
Proof.
  intros a b. destruct (String.leb_total a b) as [-> | ->]; [by left|by right].
Qed.

#[local] Instance string_leb_trans :
  Transitive (fun a b => Is_true (String.leb a b)).
Proof.
  intros a b c [Hab| ->]%leb_lt_or_eq Hbc; [|done].
  apply leb_lt_or_eq in Hbc as [Hbc| ->]; apply leb_lt_or_eq; left; [|done].
  by apply (OrderedTypeEx.String_as_OT.lt_trans a b c).
Qed.

#[local] Instance string_leb_antisym :
  AntiSymm (=) (fun a b => Is_true (String.leb a b)).
Proof.
  intros a b Hab Hba.
  apply String.leb_antisym; by apply Is_true_true.
Qed.

Lemma sort_Strings_Permutation (l l' : list string) :
  Permutation l l' -> sort_Strings l = sort_Strings l'.
Proof.
  intros Hperm. unfold sort_Strings.
  apply (Sorted_unique (fun a b => Is_true (String.leb a b)));
    [apply Sorted_merge_sort, _|apply Sorted_merge_sort, _|].
  by rewrite !merge_sort_Permutation.
Qed.

(** The text of a [Result] does not depend on the order in which the
    formatter was given its algorithms. *)
Theorem Format_order_irrelevant (Algorithms Algorithms' : list string)
    (result : Result) :
  Permutation Algorithms Algorithms' ->
  Format Algorithms result = Format Algorithms' result.
Proof.
  intros Hperm. pose proof (Permutation_length Hperm) as Hlen.
  destruct Algorithms as [|a [|b l]].
  - apply Permutation_nil_l in Hperm. by subst.
  - apply Permutation_singleton_l in Hperm. by subst.
  - destruct Algorithms' as [|a' [|b' l']]; [done|done|].
    unfold Format. by rewrite (sort_Strings_Permutation _ _ Hperm).
Qed.

End OutputMore.

Lemma Format_order_irrelevant_witness :
  output.Format ["sha256"; "md5"; "crc32"]%string examples.ok_result
  = output.Format ["crc32"; "sha256"; "md5"]%string examples.ok_result.
Proof.
  apply (Format_order_irrelevant ["sha256"; "md5"; "crc32"]%string
           ["crc32"; "sha256"; "md5"]%string examples.ok_result).
  symmetry.
  apply (Permutation_cons_append ["sha256"; "md5"]%string "crc32"%string).
Defined.

(** * The fan-out and the chunks of its reader *)

Section ChunkingMore.

Import hasher.

Variables md5_New sha1_New sha256_New sha512_New blake3_New : Hash.
Variable xxh3_Hasher : Type.
Variable xxh3_New : xxh3_Hasher.
Variable xxh3_Write : list Z -> xxh3_Hasher -> xxh3_Hasher.
Variable xxh3_Sum64 : xxh3_Hasher -> Z.
Variable xxh3_Sum128 : xxh3_Hasher -> Z * Z.

Abbreviation Get''' :=
  (Get md5_New sha1_New sha256_New sha512_New blake3_New
       xxh3_Hasher xxh3_New xxh3_Write xxh3_Sum64 xxh3_Sum128).

Lemma Get_registered (name : string) (h : Hasher) :
  Get''' name = Some h ->
  h = quickxorHasher \/ h = crc32Hasher
  \/ h = md5Hasher md5_New \/ h = sha1Hasher sha1_New
  \/ h = sha256Hasher sha256_New \/ h = sha512Hasher sha512_New
  \/ h = blake3Hasher blake3_New
  \/ h = xxh3Hasher xxh3_Hasher xxh3_New xxh3_Write xxh3_Sum64
  \/ h = xxh128Hasher xxh3_Hasher xxh3_New xxh3_Write xxh3_Sum128.
Proof.
  unfold Get, registry, Register.
  repeat (rewrite lookup_insert;
          destruct (decide _) as [_|_]; [intros [= <-]; by eauto 10|]).
  by rewrite lookup_empty.
Qed.

(** The reader's chunks written one after the other, the empty ones
    left out as [io.Copy] leaves them out, are one write of the whole
    input, for an accumulator whose [Write] is streaming. *)
Lemma copy_streaming (cs : list (list Z)) (err : option string) :
  forall h : Hash,
  streaming h ->
  copy_alone h (mkReader cs err)
  = if (length (concat cs) =? 0)%nat then h
    else Hash_Write (concat cs) h.
Proof.
  unfold copy_alone. cbn [chunks].
  induction cs as [|c cs IH]; intros h Hh; [done|].
  cbn [fold_left concat]. rewrite length_app.
  destruct c as [|x c].
  { cbn [length Nat.eqb app Nat.add]. by apply IH. }
  cbn [length Nat.eqb Nat.add].
  rewrite (IH (Hash_Write (x :: c) h)) by exact Hh.
  destruct (concat cs) as [|y l] eqn:Hcs.
  - cbn [length Nat.eqb]. by rewrite app_nil_r.
  - cbn [length Nat.eqb]. unfold Hash_Write. cbn [cur write hstate sum].
    f_equal. symmetry. apply Hh.
Qed.

(** The same for the QuickXor accumulator, whose counter does not wrap
    around while the input fits a Go slice. *)
Lemma copy_quickxor (cs : list (list Z)) (err : option string) :
  forall q : quickxorhash.quickXorHash,
  well_formed q ->
  quickxorhash.size q + Z.of_nat (length (concat cs)) < 2 ^ 64 ->
  copy_alone (quickXorHash_Hash q) (mkReader cs err)
  = quickXorHash_Hash (absorb (concat cs) q).
Proof.
  unfold copy_alone. cbn [chunks].
  induction cs as [|c cs IH]; intros q Hq Hlen.
  { cbn [fold_left concat]. by rewrite absorb_nil. }
  cbn [fold_left concat] in *. rewrite length_app, Nat2Z.inj_add in Hlen.
  assert (Hc : absorb c q
               = quickxorhash.mk
                   (xor_circ (quickxorhash.data q)
                      (Z.to_nat (quickxorhash.size q
                                 mod Z.of_nat quickxorhash.dataSize)) c)
                   ((quickxorhash.size q + Z.of_nat (length c)) mod 2 ^ 64))
    by (by apply absorb_spec).
  assert (Hsize : quickxorhash.size (absorb c q)
                  = quickxorhash.size q + Z.of_nat (length c)).
  { rewrite Hc. cbn [quickxorhash.size]. destruct Hq as [_ Hs].
    apply Z.mod_small. lia. }
  rewrite <- absorb_app by (done || lia).
  destruct (length c =? 0)%nat eqn:Hempty.
  - apply Nat.eqb_eq, nil_length_inv in Hempty. subst c.
    rewrite absorb_nil by done. apply IH; [done|]. simpl in Hlen. lia.
  - change (Hash_Write c (quickXorHash_Hash q))
      with (quickXorHash_Hash (absorb c q)).
    apply IH; [by apply absorb_well_formed|]. rewrite Hsize. lia.
Qed.

Lemma copy_quickxor_New (cs : list (list Z)) (err : option string) :
  Z.of_nat (length (concat cs)) <= maxInt ->
  copy_alone (quickXorHash_Hash quickxorhash.New) (mkReader cs err)
  = copy_alone (quickXorHash_Hash quickxorhash.New)
               (mkReader [concat cs] err).
Proof.
  intros Hlen. unfold maxInt in Hlen.
  rewrite !copy_quickxor; try apply New_well_formed.
  - cbn [concat]. by rewrite app_nil_r.
  - cbn [concat quickxorhash.size quickxorhash.New]. rewrite app_nil_r.
    change (quickxorhash.size quickxorhash.New) with 0. lia.
  - change (quickxorhash.size quickxorhash.New) with 0. lia.
Qed.

Lemma copy_streaming_whole (cs : list (list Z)) (err : option string)
    (h : Hash) :
  streaming h ->
  copy_alone h (mkReader cs err) = copy_alone h (mkReader [concat cs] err).
Proof.
  intros Hh. rewrite !copy_streaming by done.
  cbn [concat]. by rewrite app_nil_r.
Qed.

Lemma crc32_streaming : streaming (New crc32Hasher).
Proof. intros a b s. symmetry. apply crc32_Write_app. Qed.

(** The digests of the fan-out do not depend on how its reader cuts the
    input into chunks: for registered hashers, and an input that fits a
    Go slice, [HashReader] returns for the chunks [cs] what it returns
    for the whole input in one chunk, and each accumulator ends in the
    same state. QuickXor, CRC-32 and the two XXH3 adapters are the code
    modelled here; for the accumulators of the libraries, [Write] is
    taken to be streaming, as [hash.Hash] has it. *)
Theorem HashReader_chunk_independent (hashers : list Hasher)
    (cs : list (list Z)) (err : option string) :
  streaming md5_New -> streaming sha1_New -> streaming sha256_New ->
  streaming sha512_New -> streaming blake3_New ->
  (forall a b x, xxh3_Write (a ++ b) x = xxh3_Write b (xxh3_Write a x)) ->
  Forall (fun h => exists name, Get''' name = Some h) hashers ->
  Z.of_nat (length (concat cs)) <= maxInt ->
  HashReader (mkReader cs err) hashers
  = HashReader (mkReader [concat cs] err) hashers
  /\ Forall (fun h => copy_alone (New h) (mkReader cs err)
                      = copy_alone (New h) (mkReader [concat cs] err))
            hashers.
Proof.
  intros Hmd5 Hsha1 Hsha256 Hsha512 Hblake3 Hxxh3 Hreg Hlen.
  assert (Hall : Forall (fun h => copy_alone (New h) (mkReader cs err)
                           = copy_alone (New h) (mkReader [concat cs] err))
                        hashers).
  { eapply Forall_impl; [exact Hreg|]. intros h [name Hget].
    apply Get_registered in Hget.
    destruct Hget as [->|[->|[->|[->|[->|[->|[->|[->| ->]]]]]]]].
    - by apply copy_quickxor_New.
    - apply copy_streaming_whole, crc32_streaming.
    - by apply copy_streaming_whole.
    - by apply copy_streaming_whole.
    - by apply copy_streaming_whole.
    - by apply copy_streaming_whole.
    - by apply copy_streaming_whole.
    - apply copy_streaming_whole. intros a b x. apply Hxxh3.
    - apply copy_streaming_whole. intros a b x. apply Hxxh3. }
  split; [|done].
  unfold HashReader. destruct (length hashers =? 0)%nat; [done|].
  rewrite (surjective_pairing (io_Copy _ (mkReader cs err))).
  rewrite (surjective_pairing (io_Copy _ (mkReader [concat cs] err))).
  rewrite !io_Copy_each. unfold io_Copy. cbn [snd read_error].
  destruct err; [done|]. do 3 f_equal.
  rewrite !map_map. apply map_ext_Forall. exact Hall.
Qed.

End ChunkingMore.

Lemma HashReader_chunk_independent_witness :
  hasher.HashReader
    (hasher.mkReader [bytes_of_string "hello"; []; bytes_of_string " world"]
                     None)
    [hasher.quickxorHasher; hasher.crc32Hasher]
  = hasher.HashReader
      (hasher.mkReader
         [concat [bytes_of_string "hello"; []; bytes_of_string " world"]]
         None)
      [hasher.quickxorHasher; hasher.crc32Hasher]
  /\ Forall (fun h =>
               copy_alone (hasher.New h)
                 (hasher.mkReader
                    [bytes_of_string "hello"; []; bytes_of_string " world"]
                    None)
               = copy_alone (hasher.New h)
                   (hasher.mkReader
                      [concat [bytes_of_string "hello"; [];
                               bytes_of_string " world"]]
                      None))
            [hasher.quickxorHasher; hasher.crc32Hasher].
Proof.
  apply (HashReader_chunk_independent
           null_registry.null_Hash null_registry.null_Hash
           null_registry.null_Hash null_registry.null_Hash
           null_registry.null_Hash unit tt (fun _ s => s) (fun _ => 0)
           (fun _ => (0, 0))
           [hasher.quickxorHasher; hasher.crc32Hasher]
           [bytes_of_string "hello"; []; bytes_of_string " world"] None).
  - intros a b s. reflexivity.
  - intros a b s. reflexivity.
  - intros a b s. reflexivity.
  - intros a b s. reflexivity.
  - intros a b s. reflexivity.
  - intros a b x. reflexivity.
  - repeat constructor.
    + exists "quickxor"%string. reflexivity.
    + exists "crc32"%string. reflexivity.
  - vm_compute. discriminate.
Defined.
